(** * Cortex-AI: the chat-session / context manager

    A shallow embedding of [src/hooks/useChatHistory.ts], of the message
    updates of [src/MainApp.tsx] and of the data model of [src/types.ts],
    followed by the properties of the session store, the session assembler,
    the title derivation, the streaming updates and the error classifier.

    Conventions of the embedding.
    - A JavaScript string is a [string]; each [ascii] stands for one UTF-16
      code unit below 256, so [String.length] is the JS [length].
    - A JavaScript number that holds a timestamp is a [Z].
    - [Date.now()] is an input: every call site receives its reading as an
      argument, one argument per call in the source.
    - A React state setter is a function on the hook state; calls are applied
      one after the other, each one on the state the previous one left.
    - [Set<string>] is a [gset string]; arrays are lists.
    - A [localStorage] write inside a [try] is an input too: a boolean tells
      whether it throws, and the [catch] clause is followed when it does. *)

From Stdlib Require Import ZArith Ascii List Sorted Lia.
From stdpp Require Import base decidable option list gmap strings sets pretty.
Import ListNotations.

(** ** JavaScript primitives used by the sources *)
Module JS.

(** Truthiness of a string: only the empty string is falsy. *)
Definition truthy (s : string) : bool :=
  match s with EmptyString => false | String _ _ => true end.

(** Truthiness of an optional string property ([undefined] is falsy). *)
Definition truthy_opt (o : option string) : bool :=
  match o with Some s => truthy s | None => false end.

(** [o || d] for an optional string property. *)
Definition or_else (o : option string) (d : string) : string :=
  match o with
  | Some s => if truthy s then s else d
  | None => d
  end.

(** [s.substring(0, n)]: the first [n] code units, fewer if [s] is shorter. *)
Fixpoint substring0 (n : nat) (s : string) : string :=
  match n, s with
  | O, _ => EmptyString
  | S _, EmptyString => EmptyString
  | S n', String c s' => String c (substring0 n' s')
  end.

(** [String.prototype.toLowerCase] on one code unit below 256:
    A-Z and the Latin-1 capitals U+00C0..U+00DE (U+00D7 excepted) move up
    by 32, every other unit is kept. *)
Definition lower_unit (c : ascii) : ascii :=
  let n := nat_of_ascii c in
  if ((65 <=? n) && (n <=? 90)) || ((192 <=? n) && (n <=? 222) && negb (n =? 215))
  then ascii_of_nat (n + 32) else c.

Fixpoint toLowerCase (s : string) : string :=
  match s with
  | EmptyString => EmptyString
  | String c s' => String (lower_unit c) (toLowerCase s')
  end.

(** [sub] is an initial segment of [s]. *)
Fixpoint startsWith (sub s : string) : bool :=
  match sub, s with
  | EmptyString, _ => true
  | String _ _, EmptyString => false
  | String a sub', String b s' => bool_decide (a = b) && startsWith sub' s'
  end.

(** [s.includes(sub)] *)
Fixpoint includes (s sub : string) : bool :=
  startsWith sub s ||
  match s with
  | EmptyString => false
  | String _ s' => includes s' sub
  end.

(** White space and line terminators of ECMAScript among the code units
    below 256: TAB, LF, VT, FF, CR, SPACE and NO-BREAK SPACE. *)
Definition is_space (c : ascii) : bool :=
  let n := nat_of_ascii c in
  (n =? 9) || (n =? 10) || (n =? 11) || (n =? 12) || (n =? 13) || (n =? 32) || (n =? 160).

Fixpoint trimStart (s : string) : string :=
  match s with
  | EmptyString => EmptyString
  | String c s' => if is_space c then trimStart s' else s
  end.

Fixpoint trimEnd (s : string) : string :=
  match s with
  | EmptyString => EmptyString
  | String c s' =>
      let r := trimEnd s' in
      if is_space c && negb (truthy r) then EmptyString else String c r
  end.

(** [s.trim()] *)
Definition trim (s : string) : string := trimEnd (trimStart s).

(** [Array.prototype.sort(compareFn)].  The language requires the sort to
    be stable; for a comparator that is a total preorder the result is then
    unique, and the stable insertion sort below computes it: [a] is placed
    before the first later element [b] with [compareFn a b <= 0]. *)
Section Sort.
Context {A : Type} (compareFn : A -> A -> Z).

Fixpoint sort_insert (a : A) (l : list A) : list A :=
  match l with
  | [] => [a]
  | b :: l' => if (compareFn a b <=? 0)%Z then a :: b :: l' else b :: sort_insert a l'
  end.

Fixpoint sort (l : list A) : list A :=
  match l with
  | [] => []
  | a :: l' => sort_insert a (sort l')
  end.
End Sort.

(** [l.slice(1)] *)
Definition slice1 {A} (l : list A) : list A := drop 1 l.

(** [l.slice(0, -1)] *)
Definition slice0m1 {A} (l : list A) : list A := take (length l - 1) l.

(** [n.toString()] for an integral number. *)
Definition toString (n : Z) : string := pretty n.

(** The one-character string LF, written [\n] in the sources. *)
Definition LF : string := String (ascii_of_nat 10) EmptyString.

End JS.

(** ** The parts of the [@google/genai] SDK types the program touches *)
Module GenAI.

Record Blob := { data : string; mimeType : string }.

(** [Part]: a typed content fragment sent upstream. *)
Record Part := { text : option string; inlineData : option Blob }.

(** [Content]: one prior turn of the upstream history. *)
Record Content := { role : string; parts : list Part }.

Record FunctionCall := { name : string; args : string }.

Record GroundingChunk := { uri : string; title : string }.

(** A tool handed to the chat at creation. *)
Inductive Tool :=
| functionDeclarations (names : list string)
| googleSearch.

(** What [chats.create] receives besides the fixed model name and system
    instruction; the handle is identified with it. *)
Record Chat := { history : list Content; tools : list Tool }.

End GenAI.

(** ** [src/services/geminiService.ts]: creation of the chat handle *)
Module GeminiService.

Definition CREATE_ZIP_FUNCTION : string := "create_zip_file".

(** [createChatSession]: [getAi] throws when no API key is configured
    ([None] here); otherwise the chat is created from the history and the
    tools. *)
Definition createChatSession (effectiveApiKey : option string)
    (history : list GenAI.Content) (tools : list GenAI.Tool) : option GenAI.Chat :=
  if JS.truthy_opt effectiveApiKey
  then Some {| GenAI.history := history; GenAI.tools := tools |}
  else None.

End GeminiService.

(** ** [src/types.ts] *)
Module Types.

Inductive Role := user | model.

Definition roleName (r : Role) : string :=
  match r with user => "user" | model => "model" end.

Record Image := { data : string; mimeType : string }.
Record File := { name : string; type : string }.
Record Video := { src : string; videoObject : option string }.

Record DisplayMessagePart := {
  text : option string;
  image : option Image;
  file : option File;
  video : option Video
}.

Record DisplayMessage := {
  role : Role;
  parts : list GenAI.Part;
  displayParts : list DisplayMessagePart;
  timestamp : Z;
  isError : option bool;
  isGenerating : option bool;
  isCreditError : option bool;
  generationProgress : option string;
  functionCall : option GenAI.FunctionCall;
  groundingSources : option (list GenAI.GroundingChunk)
}.

Record StoredChatSession := {
  id : string;
  title : string;
  messages : list DisplayMessage;
  createdAt : Z;
  userId : string
}.

(** [{ text: s }] as an API part and as a display part. *)
Definition textPart (s : string) : GenAI.Part :=
  {| GenAI.text := Some s; GenAI.inlineData := None |}.

Definition textDisplayPart (s : string) : DisplayMessagePart :=
  {| text := Some s; image := None; file := None; video := None |}.

(** A message literal that sets only the four mandatory properties. *)
Definition plainMessage (r : Role) (ps : list GenAI.Part)
    (ds : list DisplayMessagePart) (t : Z) : DisplayMessage :=
  {| role := r; parts := ps; displayParts := ds; timestamp := t;
     isError := None; isGenerating := None; isCreditError := None;
     generationProgress := None; functionCall := None; groundingSources := None |}.

Definition isUser (m : DisplayMessage) : bool :=
  match role m with user => true | model => false end.

End Types.

(** ** React's [SetStateAction] *)
Module React.

Inductive SetStateAction (A : Type) :=
| byValue (a : A)
| byFunction (f : A -> A).
Arguments byValue {A} a.
Arguments byFunction {A} f.

(** [typeof updater === 'function' ? updater(old) : updater] *)
Definition resolve {A} (u : SetStateAction A) (old : A) : A :=
  match u with
  | byValue a => a
  | byFunction f => f old
  end.

End React.

(** ** [src/hooks/useChatHistory.ts] *)
Module UseChatHistory.
Import Types.

(** The module-level constant; its timestamp is the [Date.now()] read when
    the module is loaded. *)
Definition WELCOME_TEXT : string :=
  "Hello! I'm Cortex, your AI assistant. You can ask me anything or switch to Image mode to generate pictures.".

Definition WELCOME_MESSAGE (loadTime : Z) : DisplayMessage :=
  plainMessage model [textPart WELCOME_TEXT] [textDisplayPart WELCOME_TEXT] loadTime.

Definition MAX_TITLE_LENGTH : nat := 35.

(** [generateTitle] *)
Definition generateTitle (messages : list DisplayMessage) : string :=
  let firstUserMessage := List.find isUser messages in
  let firstText :=
    JS.or_else
      (firstUserMessage ≫= λ m,
         List.find (λ p, JS.truthy_opt (text p)) (displayParts m) ≫= text)
      "New Chat" in
  if MAX_TITLE_LENGTH <? String.length firstText
  then JS.substring0 MAX_TITLE_LENGTH firstText +:+ "..."
  else firstText.

(** The state cells of the hook.  [geminiSession] is derived from the other
    three by [recreateGeminiSession]. *)
Record State := {
  sessions : list StoredChatSession;
  activeSessionId : option string;
  contextSessionIds : gset string
}.

(** [useState] initial values. *)
Definition initialState : State :=
  {| sessions := []; activeSessionId := None; contextSessionIds := ∅ |}.

(** The value behind [CHAT_HISTORY_KEY] in [localStorage], as [getItem]
    followed by [JSON.parse] sees it: no item, an array of sessions, or
    something on which reading or parsing throws.  [JSON.stringify] and
    [JSON.parse] are taken to be inverse on session arrays. *)
Inductive Stored :=
| NoItem
| Parsed (allSessions : list StoredChatSession)
| Throws.

(** [savedSessions ? JSON.parse(savedSessions) : []], or the exception. *)
Definition readAll (st : Stored) : option (list StoredChatSession) :=
  match st with
  | NoItem => Some []
  | Parsed l => Some l
  | Throws => None
  end.

(** The object literal built by [startNewChat] and by [deleteChatSession];
    [tId] and [tCreated] are its two clock readings. *)
Definition newSession (userId : string) (loadTime tId tCreated : Z) : StoredChatSession :=
  {| id := JS.toString tId;
     title := "New Chat";
     messages := [WELCOME_MESSAGE loadTime];
     createdAt := tCreated;
     userId := userId |}.

(** [startNewChat]: the new state and the returned id. *)
Definition startNewChat (userId : string) (loadTime : Z) (isInitial : bool)
    (tId tCreated : Z) (st : State) : State * string :=
  let s := newSession userId loadTime tId tCreated in
  ({| sessions := if isInitial then [s] else s :: sessions st;
      activeSessionId := Some (id s);
      contextSessionIds := contextSessionIds st |},
   id s).

(** [(a, b) => b.createdAt - a.createdAt] *)
Definition newestFirst (a b : StoredChatSession) : Z := (createdAt b - createdAt a)%Z.

(** The load effect, run on [initialState]. *)
Definition load (userId : string) (loadTime : Z) (stored : Stored)
    (tId tCreated : Z) (st : State) : State :=
  match readAll stored with
  | Some allSessions =>
      let userSessions :=
        List.filter (λ s, bool_decide (Types.userId s = userId)) allSessions in
      match userSessions with
      | _ :: _ =>
          let sortedSessions := JS.sort newestFirst userSessions in
          {| sessions := sortedSessions;
             (* sortedSessions[0].id; sorting keeps the length *)
             activeSessionId := id <$> sortedSessions !! 0;
             contextSessionIds := contextSessionIds st |}
      | [] =>
          let '(st', newSessionId) := startNewChat userId loadTime true tId tCreated st in
          {| sessions := sessions st';
             activeSessionId := Some newSessionId;
             contextSessionIds := contextSessionIds st' |}
      end
  | None =>
      (* catch *)
      let '(st', newSessionId) := startNewChat userId loadTime true tId tCreated st in
      {| sessions := sessions st';
         activeSessionId := Some newSessionId;
         contextSessionIds := contextSessionIds st' |}
  end.

(** The save effect: the stored value it leaves.  [setItemThrows] tells
    whether [localStorage.setItem] throws (the quota is exceeded); the
    [catch] swallows that like a failed read, and the document stays as it
    was. *)
Definition save (userId : string) (sessions : list StoredChatSession)
    (stored : Stored) (setItemThrows : bool) : Stored :=
  match readAll stored with
  | Some allSessions =>
      let otherUserSessions :=
        List.filter (λ s, negb (bool_decide (Types.userId s = userId))) allSessions in
      let updatedAllSessions := otherUserSessions ++ sessions in
      if setItemThrows then stored   (* catch: the write failed *)
      else Parsed updatedAllSessions
  | None => stored   (* catch: nothing is written *)
  end.

(** [{ role: msg.role, parts: msg.parts }] *)
Definition toContent (msg : DisplayMessage) : GenAI.Content :=
  {| GenAI.role := roleName (role msg); GenAI.parts := parts msg |}.

(** The [combinedHistory] of [recreateGeminiSession]; [None] is the early
    [return] taken when the target session is not in the collection. *)
Definition combinedHistory (targetSessionId : string)
    (allSessions : list StoredChatSession) (currentContextIds : gset string)
    : option (list GenAI.Content) :=
  let contextSessions :=
    List.filter (λ s, bool_decide (id s ∈ currentContextIds)) allSessions in
  match List.find (λ s, bool_decide (id s = targetSessionId)) allSessions with
  | None => None
  | Some activeSession =>
      let contextHistory :=
        List.map toContent (List.flat_map (λ s, JS.slice1 (messages s)) contextSessions) in
      let activeHistory := List.map toContent (JS.slice1 (messages activeSession)) in
      Some (contextHistory ++ activeHistory)
  end.

(** What a run of [recreateGeminiSession] does to the [geminiSession] cell:
    nothing, or an assignment ([null] when the creation threw). *)
Inductive HandleUpdate :=
| untouched
| assigned (handle : option GenAI.Chat).

(** [recreateGeminiSession]; [effectiveApiKey] is what [getEffectiveApiKey]
    returns when [createChatSession] runs. *)
Definition recreateGeminiSession (effectiveApiKey : option string)
    (targetSessionId : string)
    (allSessions : list StoredChatSession) (currentContextIds : gset string)
    (isWebSearchEnabled : bool) : HandleUpdate :=
  match combinedHistory targetSessionId allSessions currentContextIds with
  | None => untouched
  | Some combined =>
      let tools :=
        GenAI.functionDeclarations [GeminiService.CREATE_ZIP_FUNCTION] ::
        (if isWebSearchEnabled then [GenAI.googleSearch] else []) in
      (* try: setGeminiSession(createChatSession(..)); catch: setGeminiSession(null) *)
      assigned (GeminiService.createChatSession effectiveApiKey combined tools)
  end.

(** The function mapped over the collection by [updateSessionMessages]. *)
Definition updateOne (sessionId : string)
    (updater : React.SetStateAction (list DisplayMessage))
    (session : StoredChatSession) : StoredChatSession :=
  if bool_decide (id session = sessionId) then
    let oldMessages := messages session in
    let newMessages := React.resolve updater oldMessages in
    {| id := id session;
       title :=
         if (length (List.filter isUser newMessages) =? 1)
            && bool_decide (title session = "New Chat")
         then generateTitle newMessages
         else title session;
       messages := newMessages;
       createdAt := createdAt session;
       userId := userId session |}
  else session.

(** [updateSessionMessages] *)
Definition updateSessionMessages (sessionId : string)
    (updater : React.SetStateAction (list DisplayMessage))
    (prevSessions : list StoredChatSession) : list StoredChatSession :=
  List.map (updateOne sessionId updater) prevSessions.

(** [loadChatSession] *)
Definition loadChatSession (sessionId : string) (st : State) : State :=
  match List.find (λ s, bool_decide (id s = sessionId)) (sessions st) with
  | Some _ =>
      {| sessions := sessions st;
         activeSessionId := Some sessionId;
         contextSessionIds := contextSessionIds st |}
  | None => st
  end.

(** [deleteChatSession] *)
Definition deleteChatSession (userId : string) (loadTime : Z) (sessionId : string)
    (tId tCreated : Z) (st : State) : State :=
  let newSet := contextSessionIds st ∖ {[ sessionId ]} in
  let newSessions :=
    List.filter (λ s, negb (bool_decide (id s = sessionId))) (sessions st) in
  if bool_decide (activeSessionId st = Some sessionId) then
    match newSessions with
    | _ :: _ =>
        let mostRecent := JS.sort newestFirst newSessions !! 0 in
        {| sessions := newSessions;
           (* mostRecent.id; sorting keeps the length *)
           activeSessionId := id <$> mostRecent;
           contextSessionIds := newSet |}
    | [] =>
        let s := newSession userId loadTime tId tCreated in
        {| sessions := [s];
           activeSessionId := Some (id s);
           contextSessionIds := newSet |}
    end
  else
    {| sessions := newSessions;
       activeSessionId := activeSessionId st;
       contextSessionIds := newSet |}.

(** [updateSessionTitle] *)
Definition updateSessionTitle (sessionId newTitle : string)
    (prev : list StoredChatSession) : list StoredChatSession :=
  let trimmedTitle := JS.trim newTitle in
  if negb (JS.truthy trimmedTitle) then prev
  else
    List.map
      (λ s, if bool_decide (id s = sessionId)
            then {| id := id s; title := trimmedTitle; messages := messages s;
                    createdAt := createdAt s; userId := userId s |}
            else s)
      prev.

(** [toggleContextSession] *)
Definition toggleContextSession (sessionId : string) (st : State) : State :=
  {| sessions := sessions st;
     activeSessionId := activeSessionId st;
     contextSessionIds :=
       if bool_decide (sessionId ∈ contextSessionIds st)
       then contextSessionIds st ∖ {[ sessionId ]}
       else contextSessionIds st ∪ {[ sessionId ]} |}.

(** [activeChatHistory] *)
Definition activeChatHistory (st : State) : list DisplayMessage :=
  default []
    (activeSessionId st ≫= λ a,
       messages <$> List.find (λ s, bool_decide (id s = a)) (sessions st)).

(** [setActiveChatHistory], with the [activeSessionId] its closure holds. *)
Definition setActiveChatHistory (activeSessionId : option string)
    (updater : React.SetStateAction (list DisplayMessage))
    (prevSessions : list StoredChatSession) : list StoredChatSession :=
  if JS.truthy_opt activeSessionId
  then updateSessionMessages (default "" activeSessionId) updater prevSessions
  else prevSessions.

(** A call of the store from the interface. *)
Inductive Call :=
| createSession (isInitial : bool) (tId tCreated : Z)
| deleteSession (sessionId : string) (tId tCreated : Z).

Definition step (userId : string) (loadTime : Z) (st : State) (c : Call) : State :=
  match c with
  | createSession isInitial tId tCreated =>
      fst (startNewChat userId loadTime isInitial tId tCreated st)
  | deleteSession sessionId tId tCreated =>
      deleteChatSession userId loadTime sessionId tId tCreated st
  end.

Definition run (userId : string) (loadTime : Z) (calls : list Call) (st : State) : State :=
  fold_left (step userId loadTime) calls st.

End UseChatHistory.

(** ** [src/MainApp.tsx]: error classification and message updates *)
Module MainApp.
Import Types.

(** A value caught by a [catch] clause: an [Error] instance with its
    message, or any other value, with its [message] property if it has one
    and with the text [String(error)] gives. *)
Inductive Thrown :=
| ErrorInstance (message : string)
| OtherValue (message : option string) (asString : string).

(** [error?.message] *)
Definition messageOf (error : Thrown) : option string :=
  match error with
  | ErrorInstance m => Some m
  | OtherValue m _ => m
  end.

(** [error instanceof Error ? error.message : String(error)] *)
Definition describe (error : Thrown) : string :=
  match error with
  | ErrorInstance m => m
  | OtherValue _ s => s
  end.

(** [isCreditError] *)
Definition isCreditError (error : Thrown) : bool :=
  let message := JS.toLowerCase (JS.or_else (messageOf error) "") in
  JS.includes message "quota" ||
  JS.includes message "billing" ||
  JS.includes message "credit" ||
  JS.includes message "rate limit".

(** The updater [prev => [...prev, m]]. *)
Definition append (m : DisplayMessage) (prev : list DisplayMessage) : list DisplayMessage :=
  prev ++ [m].

(** The updater [prev => { const newHistory = [...prev];
    newHistory[newHistory.length - 1] = r; return newHistory; }].
    On an empty array the assignment sets the property [-1] and adds no
    element. *)
Definition replaceLast (r : DisplayMessage) (prev : list DisplayMessage)
    : list DisplayMessage :=
  <[length prev - 1 := r]> prev.

(** The updater [prev => [...prev.slice(0, -1), m]]. *)
Definition replaceTail (m : DisplayMessage) (prev : list DisplayMessage)
    : list DisplayMessage :=
  JS.slice0m1 prev ++ [m].

(** What the chat loop reads from one chunk of the stream: [chunk.text],
    [chunk.functionCalls] and
    [chunk.candidates?.[0]?.groundingMetadata?.groundingChunks]. *)
Record Chunk := {
  chunkText : option string;
  functionCalls : option (list GenAI.FunctionCall);
  groundingChunks : option (list GenAI.GroundingChunk)
}.

(** The variables of the chat loop. *)
Record Loop := {
  text : string;
  finalFunctionCall : option GenAI.FunctionCall;
  currentResponse : DisplayMessage
}.

(** [{ role: 'model', parts: [{ text: '' }], displayParts: [{ text: '' }],
    timestamp: Date.now() + 1 }] *)
Definition placeholder (t1 : Z) : DisplayMessage :=
  plainMessage model [textPart ""] [textDisplayPart ""] (t1 + 1)%Z.

Definition loopStart (t1 : Z) : Loop :=
  {| text := ""; finalFunctionCall := None; currentResponse := placeholder t1 |}.

(** One iteration of [for await (const chunk of stream)], up to the call of
    [setActiveChatHistory]. *)
Definition onChunk (l : Loop) (chunk : Chunk) : Loop :=
  let text' := if JS.truthy_opt (chunkText chunk) then default "" (chunkText chunk) else text l in
  let call' :=
    match functionCalls chunk with
    | Some (c :: _) => Some c
    | _ => finalFunctionCall l
    end in
  let r := currentResponse l in
  {| text := text';
     finalFunctionCall := call';
     currentResponse :=
       {| role := role r;
          parts := [textPart text'];
          displayParts := [textDisplayPart text'];
          timestamp := timestamp r;
          isError := isError r;
          isGenerating := isGenerating r;
          Types.isCreditError := Types.isCreditError r;
          generationProgress := generationProgress r;
          functionCall := call';
          groundingSources := groundingChunks chunk |} |}.

(** The loop variables after the given chunks. *)
Definition runLoop (l : Loop) (chunks : list Chunk) : Loop :=
  fold_left onChunk chunks l.

(** The updaters the loop passes to [setActiveChatHistory], in order. *)
Fixpoint streamUpdaters (l : Loop) (chunks : list Chunk)
    : list (list DisplayMessage -> list DisplayMessage) :=
  match chunks with
  | [] => []
  | chunk :: rest =>
      let l' := onChunk l chunk in
      replaceLast (currentResponse l') :: streamUpdaters l' rest
  end.

(** The message built in the [catch] clause of the chat branch; [tErr] is
    its clock reading. *)
Definition chatErrorMessage (error : Thrown) (tErr : Z) : DisplayMessage :=
  let creditError := isCreditError error in
  let errorMessageContent :=
    "Sorry, something went wrong. Please try again. " +:+ JS.LF +:+ JS.LF +:+ describe error in
  {| role := model;
     parts := [textPart errorMessageContent];
     displayParts := [textDisplayPart errorMessageContent];
     timestamp := (tErr + 1)%Z;
     isError := Some true;
     isGenerating := None;
     Types.isCreditError := Some creditError;
     generationProgress := None;
     functionCall := None;
     groundingSources := None |}.

(** How the stream ends: normally, or with a thrown value. *)
Inductive StreamEnd :=
| completes
| throws (error : Thrown) (tErr : Z).

(** All updaters of the chat branch of [handleSendMessage]: the user
    message (clock reading [t0]), the placeholder (clock reading [t1]), one
    update per chunk, and the error message if the stream throws. *)
Definition chatUpdaters (userMessageParts : list GenAI.Part)
    (displayParts : list DisplayMessagePart) (t0 t1 : Z)
    (chunks : list Chunk) (e : StreamEnd)
    : list (list DisplayMessage -> list DisplayMessage) :=
  let userMessage := plainMessage user userMessageParts displayParts t0 in
  append userMessage
  :: append (placeholder t1)
  :: streamUpdaters (loopStart t1) chunks
  ++ match e with
     | completes => []
     | throws error tErr => [replaceTail (chatErrorMessage error tErr)]
     end.

(** The updaters applied to one message list, first to last. *)
Definition applyAll (us : list (list DisplayMessage -> list DisplayMessage))
    (h : list DisplayMessage) : list DisplayMessage :=
  fold_left (λ acc u, u acc) us h.

(** The same updaters sent through [setActiveChatHistory] by a handler
    whose closure holds [activeSessionId]. *)
Definition sendAll (activeSessionId : option string)
    (us : list (list DisplayMessage -> list DisplayMessage))
    (sessions : list StoredChatSession) : list StoredChatSession :=
  fold_left
    (λ acc u, UseChatHistory.setActiveChatHistory activeSessionId (React.byFunction u) acc)
    us sessions.

(** [{ ...msg, generationProgress: status }] *)
Definition withProgress (status : string) (msg : DisplayMessage) : DisplayMessage :=
  {| role := role msg; parts := parts msg; displayParts := displayParts msg;
     timestamp := timestamp msg; isError := isError msg;
     isGenerating := isGenerating msg;
     Types.isCreditError := Types.isCreditError msg;
     generationProgress := Some status;
     functionCall := functionCall msg;
     groundingSources := groundingSources msg |}.

(** The video branch: [onProgress], which rewrites the loading message
    found by its timestamp. *)
Definition onProgress (loadingTimestamp : Z) (status : string)
    (prev : list DisplayMessage) : list DisplayMessage :=
  List.map
    (λ msg,
       if bool_decide (timestamp msg = loadingTimestamp)
       then withProgress status msg
       else msg)
    prev.

(** The video branch: [prev.map(msg => msg.timestamp === loadingTimestamp ?
    response : msg)], used for the finished video and for its error. *)
Definition settle (loadingTimestamp : Z) (response : DisplayMessage)
    (prev : list DisplayMessage) : list DisplayMessage :=
  List.map (λ msg, if bool_decide (timestamp msg = loadingTimestamp) then response else msg) prev.


Definition imageResponse (base64Image : string) (tDone : Z) : DisplayMessage :=
  plainMessage model
    [{| GenAI.text := None;
        GenAI.inlineData := Some {| GenAI.data := base64Image; GenAI.mimeType := "image/png" |} |}]
    [{| Types.text := None;
        image := Some {| data := "data:image/png;base64," +:+ base64Image;
                         mimeType := "image/png" |};
        file := None; video := None |}]
    (tDone + 1)%Z.



(** The video branch: the loading message, the finished video and the
    message of the [catch] clause. *)
Definition videoLoading (userMessageParts : list GenAI.Part)
    (displayParts : list DisplayMessagePart) (t1 : Z) : DisplayMessage :=
  {| role := model; parts := userMessageParts; displayParts := displayParts;
     timestamp := (t1 + 1)%Z; isError := None; isGenerating := Some true;
     Types.isCreditError := None; generationProgress := Some "Preparing request...";
     functionCall := None; groundingSources := None |}.

Definition videoResponse (videoUrl : string) (videoObject : option string) (tDone : Z)
    : DisplayMessage :=
  plainMessage model []
    [{| Types.text := None; image := None; file := None;
        video := Some {| src := videoUrl; videoObject := videoObject |} |}]
    tDone.


(** All updaters of the video branch: the user message, the loading message,
    one [onProgress] per status reported by the polling, and [final] (the
    video or the error message) put in place by timestamp. *)
Definition videoUpdaters (userMessageParts : list GenAI.Part)
    (displayParts : list DisplayMessagePart) (t0 t1 : Z)
    (statuses : list string) (final : DisplayMessage)
    : list (list DisplayMessage -> list DisplayMessage) :=
  let loadingTimestamp := timestamp (videoLoading userMessageParts displayParts t1) in
  append (plainMessage user userMessageParts displayParts t0)
  :: append (videoLoading userMessageParts displayParts t1)
  :: List.map (onProgress loadingTimestamp) statuses
  ++ [settle loadingTimestamp final].

End MainApp.

(** ** The notions the properties are stated with *)
Module Spec.
Import Types.

(** Every code unit of [s] is white space. *)
Fixpoint blank (s : string) : bool :=
  match s with
  | EmptyString => true
  | String c s' => JS.is_space c && blank s'
  end.

(** The last code unit of a string, if any. *)
Fixpoint lastUnit (s : string) : option ascii :=
  match s with
  | EmptyString => None
  | String c EmptyString => Some c
  | String _ s' => lastUnit s'
  end.

(** The collection is ordered newest first. *)
Definition newestFirstOrdered (l : list StoredChatSession) : Prop :=
  Sorted (λ a b, (createdAt b ≤ createdAt a)%Z) l.

(** The session with the greatest creation timestamp, the earliest one in
    collection order when several share it. *)
Fixpoint newest (l : list StoredChatSession) : option StoredChatSession :=
  match l with
  | [] => None
  | a :: l' =>
      match newest l' with
      | None => Some a
      | Some m => if (createdAt m <=? createdAt a)%Z then Some a else Some m
      end
  end.

(** Exactly one session is active and it is in the collection. *)
Definition activeExists (st : UseChatHistory.State) : Prop :=
  ∃ a, UseChatHistory.activeSessionId st = Some a ∧
       ∃ s, s ∈ UseChatHistory.sessions st ∧ id s = a.

(** A freshly seeded session: default title, one welcome message. *)
Definition seeded (loadTime : Z) (s : StoredChatSession) : Prop :=
  title s = "New Chat" ∧ messages s = [UseChatHistory.WELCOME_MESSAGE loadTime].

(** A session's messages without the welcome message, each reduced to its
    role and API-facing parts. *)
Definition upstreamOf (s : StoredChatSession) : list GenAI.Content :=
  match messages s with
  | [] => []
  | _welcome :: kept =>
      (λ m, {| GenAI.role := roleName (role m); GenAI.parts := parts m |}) <$> kept
  end.

(** The context prefix: the sessions of the collection selected by the
    context set, in collection order. *)
Fixpoint contextPrefix (all : list StoredChatSession) (ctx : gset string)
    : list GenAI.Content :=
  match all with
  | [] => []
  | s :: rest =>
      (if decide (id s ∈ ctx) then upstreamOf s else []) ++ contextPrefix rest ctx
  end.

(** The upstream history: context prefix, then the active session. *)
Definition upstreamHistory (all : list StoredChatSession) (ctx : gset string)
    (active : StoredChatSession) : list GenAI.Content :=
  contextPrefix all ctx ++ upstreamOf active.

(** The first display fragment of a message that carries text. *)
Fixpoint firstText (ds : list DisplayMessagePart) : option string :=
  match ds with
  | [] => None
  | d :: rest =>
      match text d with
      | Some (String c t) => Some (String c t)
      | _ => firstText rest
      end
  end.

(** [h'] is [h] with the one message that carries the key [ts] replaced,
    where it stands, by [r]; [r] carries the same key. *)
Definition rewrittenAt (ts : Z) (r : DisplayMessage) (h h' : list DisplayMessage) : Prop :=
  ∃ pre old post,
    h = pre ++ old :: post ∧ h' = pre ++ r :: post ∧
    timestamp old = ts ∧ timestamp r = ts ∧
    Forall (λ m, timestamp m ≠ ts) pre ∧ Forall (λ m, timestamp m ≠ ts) post.

(** The messages of [h] that carry the key [ts]. *)
Definition withKey (ts : Z) (h : list DisplayMessage) : list DisplayMessage :=
  List.filter (λ m, bool_decide (timestamp m = ts)) h.

(** [a] is the session the collection gives for the id [target]: the first
    one that carries it. *)
Definition firstWithId (target : string) (all : list StoredChatSession)
    (a : StoredChatSession) : Prop :=
  ∃ pre post, all = pre ++ a :: post ∧ id a = target ∧ Forall (λ s, id s ≠ target) pre.



End Spec.

(** ** The scenarios of the specification, as data *)
Module Scenario.
Import Types.

(** User [A] has two sessions: [S1] created at 100, [S2] created at 200. *)
Definition S1 : StoredChatSession :=
  {| id := "100"; title := "New Chat";
     messages := [UseChatHistory.WELCOME_MESSAGE 0];
     createdAt := 100; userId := "A" |}.

Definition S2 : StoredChatSession :=
  {| id := "200"; title := "New Chat";
     messages := [UseChatHistory.WELCOME_MESSAGE 0];
     createdAt := 200; userId := "A" |}.

(** A session of another user. *)
Definition S3 : StoredChatSession :=
  {| id := "150"; title := "Plans";
     messages := [UseChatHistory.WELCOME_MESSAGE 0];
     createdAt := 150; userId := "B" |}.

(** Two conversations with turns after the welcome message. *)
Definition hello : DisplayMessage :=
  plainMessage user [textPart "hello world"] [textDisplayPart "hello world"] 1000.

Definition reply : DisplayMessage :=
  plainMessage model [textPart "Hi there!"] [textDisplayPart "Hi there!"] 1002.

Definition question : DisplayMessage :=
  plainMessage user [textPart "and then?"] [textDisplayPart "and then?"] 2000.

Definition T1 : StoredChatSession :=
  {| id := "100"; title := "hello world";
     messages := [UseChatHistory.WELCOME_MESSAGE 0; hello; reply];
     createdAt := 100; userId := "A" |}.

Definition T2 : StoredChatSession :=
  {| id := "200"; title := "and then?";
     messages := [UseChatHistory.WELCOME_MESSAGE 0; question];
     createdAt := 200; userId := "A" |}.

(** A stream of three chunks with cumulative text. *)
Definition textChunk (t : string) : MainApp.Chunk :=
  {| MainApp.chunkText := Some t; MainApp.functionCalls := None;
     MainApp.groundingChunks := None |}.

Definition threeChunks : list MainApp.Chunk :=
  [textChunk "Hi"; textChunk "Hi there"; textChunk "Hi there!"].

(** [S2] is active, newest first. *)
Definition twoSessions : UseChatHistory.State :=
  {| UseChatHistory.sessions := [S2; S1];
     UseChatHistory.activeSessionId := Some "200";
     UseChatHistory.contextSessionIds := ∅ |}.

(** Only [S1] is left and it is active. *)
Definition oneSession : UseChatHistory.State :=
  {| UseChatHistory.sessions := [S1];
     UseChatHistory.activeSessionId := Some "100";
     UseChatHistory.contextSessionIds := ∅ |}.

End Scenario.

(** ** Every call the interface makes on the hook *)
Module Calls.
Import Types UseChatHistory.

(** One call: the two of [UseChatHistory.Call], [loadChatSession],
    [toggleContextSession], [setActiveChatHistory] (with the active id its
    closure holds, which an update still in flight may have captured
    earlier) and [updateSessionTitle]. *)
Inductive Op :=
| StartNewChat (isInitial : bool) (tId tCreated : Z)
| DeleteChatSession (sessionId : string) (tId tCreated : Z)
| LoadChatSession (sessionId : string)
| ToggleContextSession (sessionId : string)
| SetChatHistory (captured : option string)
    (updater : React.SetStateAction (list DisplayMessage))
| UpdateSessionTitle (sessionId newTitle : string).

(** [setSessions(f)] *)
Definition setSessions (f : list StoredChatSession → list StoredChatSession)
    (st : State) : State :=
  {| sessions := f (sessions st);
     activeSessionId := activeSessionId st;
     contextSessionIds := contextSessionIds st |}.

Definition apply (userId : string) (loadTime : Z) (st : State) (op : Op) : State :=
  match op with
  | StartNewChat isInitial tId tCreated =>
      fst (startNewChat userId loadTime isInitial tId tCreated st)
  | DeleteChatSession sessionId tId tCreated =>
      deleteChatSession userId loadTime sessionId tId tCreated st
  | LoadChatSession sessionId => loadChatSession sessionId st
  | ToggleContextSession sessionId => toggleContextSession sessionId st
  | SetChatHistory captured updater =>
      setSessions (setActiveChatHistory captured updater) st
  | UpdateSessionTitle sessionId newTitle =>
      setSessions (updateSessionTitle sessionId newTitle) st
  end.

Definition runOps (userId : string) (loadTime : Z) (ops : list Op) (st : State) : State :=
  fold_left (apply userId loadTime) ops st.

(** The clock reading a new chat takes as its creation time is not behind
    the creation time of any session in memory. *)
Definition clockAhead (st : State) (op : Op) : Prop :=
  match op with
  | StartNewChat false _ tCreated =>
      Forall (λ s, (createdAt s ≤ tCreated)%Z) (sessions st)
  | _ => True
  end.

(** [clockAhead] at every call of a run. *)
Fixpoint clockAheadAll (userId : string) (loadTime : Z) (st : State) (ops : list Op) : Prop :=
  match ops with
  | [] => True
  | op :: rest =>
      clockAhead st op ∧ clockAheadAll userId loadTime (apply userId loadTime st op) rest
  end.

(** A function on sessions that keeps id, creation time and owner. *)
Definition keepsKeys (f : StoredChatSession → StoredChatSession) : Prop :=
  ∀ s, id (f s) = id s ∧ createdAt (f s) = createdAt s ∧ Types.userId (f s) = Types.userId s.

(** [handleTitleSave] of [MainApp.tsx]; [editingSession] is the id and the
    title being edited, if any. *)
Definition handleTitleSave (editingSession : option (string * string))
    (prev : list StoredChatSession) : list StoredChatSession :=
  match editingSession with
  | Some (sessionId, title) =>
      if JS.truthy (JS.trim title)
      then updateSessionTitle sessionId (JS.trim title) prev
      else prev
  | None => prev
  end.

End Calls.

(** ** The video branch while the polling still reports *)
Module Flows.
Import Types MainApp.

(** The updaters of the video branch issued before the video or the error
    arrives: the user message, the loading message and one [onProgress] per
    reported status. *)
Definition videoProgressUpdaters (userMessageParts : list GenAI.Part)
    (displayParts : list DisplayMessagePart) (t0 t1 : Z) (statuses : list string)
    : list (list DisplayMessage -> list DisplayMessage) :=
  let loadingTimestamp := timestamp (videoLoading userMessageParts displayParts t1) in
  append (plainMessage user userMessageParts displayParts t0)
  :: append (videoLoading userMessageParts displayParts t1)
  :: List.map (onProgress loadingTimestamp) statuses.

(** The loading message after the given status reports. *)
Definition progressed (statuses : list string) (m : DisplayMessage) : DisplayMessage :=
  fold_left (λ acc status, withProgress status acc) statuses m.

End Flows.

(** * Two sends in flight *)
Module Submits.
Import Types MainApp.

(** The chat branch of [handleSendMessage] up to its first [await]: the
    guard [if (isLoading) return;] on the value its closure holds, then the
    user message and the placeholder. *)
Definition chatHead (isLoading : bool) (userMessageParts : list GenAI.Part)
    (displayParts : list DisplayMessagePart) (t0 t1 : Z)
    : list (list DisplayMessage -> list DisplayMessage) :=
  if isLoading then []
  else [append (plainMessage user userMessageParts displayParts t0);
        append (placeholder t1)].

(** Two calls of one [handleSendMessage] closure, then the chunks of the
    first call's stream.  The prompt input awaits the reading of the attached
    files before it calls [onSendMessage], so two sends started in one
    render reach the closure of that render, and both pass its guard when
    its [isLoading] is unset: [setIsLoading(true)] of the first call does
    not change what the closure holds.  Each call runs up to
    [await streamMessage]; the updaters reach the session in the order they
    were issued. *)
Definition twoSends (isLoading : bool)
    (parts1 : list GenAI.Part) (dps1 : list DisplayMessagePart) (t0 t1 : Z)
    (parts2 : list GenAI.Part) (dps2 : list DisplayMessagePart) (t0' t1' : Z)
    (chunks1 : list Chunk)
    : list (list DisplayMessage -> list DisplayMessage) :=
  chatHead isLoading parts1 dps1 t0 t1
  ++ chatHead isLoading parts2 dps2 t0' t1'
  ++ (if isLoading then [] else streamUpdaters (loopStart t1) chunks1).

End Submits.

(** ** [src/services/geminiService.ts]: the API keys in [localStorage] *)
Module ApiKeys.

(** [localStorage]: its items, and whether touching it throws (as it does
    when the browser denies access). *)
Record LocalStorage := {
  throws : bool;
  items : gmap string string
}.

Definition CUSTOM_API_KEY_STORAGE_KEY : string := "cortex-custom-api-key".
Definition VIDEO_API_KEY_STORAGE_KEY : string := "cortex-video-api-key".

(** [try { return localStorage.getItem(k) } catch { return null }] *)
Definition getItemOrNull (k : string) (ls : LocalStorage) : option string :=
  if throws ls then None else items ls !! k.

(** [try { localStorage.setItem(k, v) } catch { }] *)
Definition setItemQuietly (k v : string) (ls : LocalStorage) : LocalStorage :=
  if throws ls then ls else {| throws := false; items := <[k := v]> (items ls) |}.

(** [try { localStorage.removeItem(k) } catch { }] *)
Definition removeItemQuietly (k : string) (ls : LocalStorage) : LocalStorage :=
  if throws ls then ls else {| throws := false; items := delete k (items ls) |}.

Definition getCustomApiKey : LocalStorage → option string :=
  getItemOrNull CUSTOM_API_KEY_STORAGE_KEY.
Definition setCustomApiKey (key : string) : LocalStorage → LocalStorage :=
  setItemQuietly CUSTOM_API_KEY_STORAGE_KEY key.
Definition clearCustomApiKey : LocalStorage → LocalStorage :=
  removeItemQuietly CUSTOM_API_KEY_STORAGE_KEY.

Definition getVideoApiKey : LocalStorage → option string :=
  getItemOrNull VIDEO_API_KEY_STORAGE_KEY.
Definition setVideoApiKey (key : string) : LocalStorage → LocalStorage :=
  setItemQuietly VIDEO_API_KEY_STORAGE_KEY key.
Definition clearVideoApiKey : LocalStorage → LocalStorage :=
  removeItemQuietly VIDEO_API_KEY_STORAGE_KEY.

(** [getCustomApiKey() || process.env.API_KEY || null]; [env] is
    [process.env.API_KEY]. *)
Definition getEffectiveApiKey (env : option string) (ls : LocalStorage) : option string :=
  if JS.truthy_opt (getCustomApiKey ls) then getCustomApiKey ls
  else if JS.truthy_opt env then env
  else None.

(** The key cells of [MainApp]: the storage, the two input fields and the
    version counter that makes the hook build a new chat handle. *)
Record KeyState := {
  storage : LocalStorage;
  customApiKeyInput : string;
  videoApiKeyInput : string;
  apiKeyVersion : nat
}.

(** [handleSaveApiKey] *)
Definition handleSaveApiKey (key : string) (st : KeyState) : KeyState :=
  let trimmedKey := JS.trim key in
  if JS.truthy trimmedKey then
    {| storage := setCustomApiKey trimmedKey (storage st);
       customApiKeyInput := trimmedKey;
       videoApiKeyInput := videoApiKeyInput st;
       apiKeyVersion := apiKeyVersion st + 1 |}
  else st.

(** [handleClearApiKey] *)
Definition handleClearApiKey (st : KeyState) : KeyState :=
  {| storage := clearCustomApiKey (storage st);
     customApiKeyInput := "";
     videoApiKeyInput := videoApiKeyInput st;
     apiKeyVersion := apiKeyVersion st + 1 |}.

(** [handleSaveVideoApiKey] *)
Definition handleSaveVideoApiKey (key : string) (st : KeyState) : KeyState :=
  let trimmedKey := JS.trim key in
  if JS.truthy trimmedKey then
    {| storage := setVideoApiKey trimmedKey (storage st);
       customApiKeyInput := customApiKeyInput st;
       videoApiKeyInput := trimmedKey;
       apiKeyVersion := apiKeyVersion st + 1 |}
  else st.

(** [handleClearVideoApiKey] *)
Definition handleClearVideoApiKey (st : KeyState) : KeyState :=
  {| storage := clearVideoApiKey (storage st);
     customApiKeyInput := customApiKeyInput st;
     videoApiKeyInput := "";
     apiKeyVersion := apiKeyVersion st + 1 |}.

End ApiKeys.

(** ** [src/services/geminiService.ts]: [generateVideos] *)
Module VideoRequest.

Inductive Resolution := res720p | res1080p.
Inductive AspectRatio := ratio16x9 | ratio9x16.

(** [VideoGenerationParams]; the [video] to extend is opaque. *)
Record VideoGenerationParams := {
  prompt : string;
  image : option GenAI.Blob;
  lastFrame : option GenAI.Blob;
  referenceImages : option (list GenAI.Blob);
  video : option string;
  resolution : Resolution;
  aspectRatio : AspectRatio
}.

(** The [requestPayload] handed to [ai.models.generateVideos]. *)
Record RequestPayload := {
  model : string;
  payloadPrompt : string;
  numberOfVideos : nat;
  payloadResolution : Resolution;
  payloadAspectRatio : AspectRatio;
  payloadImage : option GenAI.Blob;
  payloadLastFrame : option GenAI.Blob;
  payloadReferenceImages : option (list GenAI.Blob);
  payloadVideo : option string
}.

(** [params.referenceImages && params.referenceImages.length > 0] *)
Definition hasReferenceImages (params : VideoGenerationParams) : bool :=
  match referenceImages params with
  | Some (_ :: _) => true
  | _ => false
  end.

(** The part of [generateVideos] that runs before the first status report:
    [getVideoAi], then the payload with its overrides; [inl] is the message
    of the [Error] thrown. *)
Definition buildRequest (videoApiKey : option string) (params : VideoGenerationParams)
    : string + RequestPayload :=
  if negb (JS.truthy_opt videoApiKey) then
    inl "Video generation API Key not configured. Please add a key in the sidebar."
  else
    let useHighQualityModel := hasReferenceImages params in
    let model0 :=
      if useHighQualityModel then "veo-3.1-generate-preview"
      else "veo-3.1-fast-generate-preview" in
    let prompt0 := if JS.truthy (prompt params) then prompt params else "An amazing video." in
    if hasReferenceImages params && negb (JS.truthy (prompt params)) then
      inl "A text prompt is required when using reference images."
    else
      let resolution1 := if hasReferenceImages params then res720p else resolution params in
      let aspect1 := if hasReferenceImages params then ratio16x9 else aspectRatio params in
      let references1 :=
        if hasReferenceImages params then referenceImages params else None in
      match video params with
      | Some v =>
          if negb (JS.truthy (prompt params)) then
            inl "A text prompt is required to extend a video."
          else
            inr {| model := "veo-3.1-generate-preview";
                   payloadPrompt := prompt0;
                   numberOfVideos := 1;
                   payloadResolution := res720p;
                   payloadAspectRatio := aspect1;
                   payloadImage := image params;
                   payloadLastFrame := lastFrame params;
                   payloadReferenceImages := references1;
                   payloadVideo := Some v |}
      | None =>
          inr {| model := model0;
                 payloadPrompt := prompt0;
                 numberOfVideos := 1;
                 payloadResolution := resolution1;
                 payloadAspectRatio := aspect1;
                 payloadImage := image params;
                 payloadLastFrame := lastFrame params;
                 payloadReferenceImages := references1;
                 payloadVideo := None |}
      end.

(** What the polling loop reads from an operation: [done], the [status] of
    each entry of [metadata.progress] (absent when it is not a non-empty
    array), and the [uri] of the first generated video, if any. *)
Record Operation := {
  done : bool;
  progress : option (list (option string));
  videoUri : option string
}.

(** [s.replace(/_/g, ' ')] *)
Fixpoint underscoresToSpaces (s : string) : string :=
  match s with
  | EmptyString => EmptyString
  | String c s' =>
      String (if bool_decide (c = "_"%char) then " "%char else c) (underscoresToSpaces s')
  end.

(** [progressList[progressList.length - 1]?.status], when [progressList] is
    a non-empty array. *)
Definition latestStatus (op : Operation) : option string :=
  match progress op with
  | Some l => mjoin (last l)
  | None => None
  end.

(** One turn of the [while] loop after the operation has been polled again:
    the statuses reported so far and [lastStatus]. *)
Definition onPoll (acc : list string * string) (op : Operation) : list string * string :=
  let '(reports, lastStatus) := acc in
  match latestStatus op with
  | Some p =>
      if JS.truthy p && negb (bool_decide (p = lastStatus))
      then (reports ++ ["Processing: " +:+ underscoresToSpaces (JS.toLowerCase p) +:+ "..."], p)
      else (reports, lastStatus)
  | None => (reports, lastStatus)
  end.

(** The [while (!operation.done)] loop on the operations the polls return,
    in order: the reports, and the finished operation unless the polls seen
    so far all came back unfinished. *)
Fixpoint pollLoop (operation : Operation) (polls : list Operation)
    (acc : list string * string) : list string * option Operation :=
  if done operation then (fst acc, Some operation)
  else
    match polls with
    | [] => (fst acc, None)
    | next :: rest => pollLoop next rest (onPoll acc next)
    end.

(** The result of [generateVideos]. *)
Inductive Outcome :=
| failed (message : string)
| finished (uri : string)
| polling.

(** [generateVideos] from the accepted request on: every status handed to
    [onProgress], in order, and the outcome. *)
Definition reportAndPoll (first : Operation) (polls : list Operation)
    : list string * Outcome :=
  let start :=
    (["Sending video generation request..."; "Request accepted. Your video is in the queue."],
     "queued") in
  match pollLoop first polls start with
  | (reports, None) => (reports, polling)
  | (reports, Some operation) =>
      (reports ++ ["Finalizing video..."],
       match videoUri operation with
       | Some uri => if JS.truthy uri then finished uri
                     else failed "Video generation failed to return a valid video."
       | None => failed "Video generation failed to return a valid video."
       end)
  end.

End VideoRequest.

(** ** [src/hooks/useAuth.ts] *)
Module UseAuth.

(** [User] of [src/types.ts]. *)
Record User := {
  id : string;
  email : string;
  password : option string;
  username : string;
  avatar : option string;
  isGoogleUser : option bool
}.

(** The value behind [USERS_STORAGE_KEY], as [getItem] followed by
    [JSON.parse] sees it. *)
Inductive StoredUsers :=
| NoUsersItem
| UsersParsed (users : list User)
| UsersThrow.

(** [storedUsers ? JSON.parse(storedUsers) : []], or the exception. *)
Definition readUsers (item : StoredUsers) : option (list User) :=
  match item with
  | NoUsersItem => Some []
  | UsersParsed users => Some users
  | UsersThrow => None
  end.

(** The two storage items and the two state cells of the hook. *)
Record World := {
  usersItem : StoredUsers;
  currentUserItem : option User;
  user : option User;
  authError : option string
}.

(** Which writes of one call throw (the quota is exceeded, or the storage
    is denied): [setItem] on [USERS_STORAGE_KEY], and [setItem] or
    [removeItem] on [CURRENT_USER_STORAGE_KEY]. *)
Record Writes := {
  usersWriteThrows : bool;
  currentWriteThrows : bool
}.

(** [u.email.toLowerCase() === email.toLowerCase()] *)
Definition sameEmail (email' : string) (u : User) : bool :=
  bool_decide (JS.toLowerCase (email u) = JS.toLowerCase email').

(** [!!u.isGoogleUser] *)
Definition viaGoogle (u : User) : bool :=
  match isGoogleUser u with Some true => true | _ => false end.

Definition withError (message : string) (w : World) : World :=
  {| usersItem := usersItem w; currentUserItem := currentUserItem w;
     user := user w; authError := Some message |}.

(** [setUser(u); localStorage.setItem(CURRENT_USER_STORAGE_KEY, ..);
    setAuthError(null)] on the given users item, when the write succeeds. *)
Definition signedIn (item : StoredUsers) (u : User) : World :=
  {| usersItem := item; currentUserItem := Some u; user := Some u; authError := None |}.

(** The same statements when the write throws: [setUser(u)] has run, the
    stored current user is what it was, and the [catch] sets the error. *)
Definition signInCaught (item : StoredUsers) (u : User) (message : string) (w : World)
    : World :=
  {| usersItem := item; currentUserItem := currentUserItem w; user := Some u;
     authError := Some message |}.

(** The effect that restores the current user when the hook mounts. *)
Definition restore (w : World) : World :=
  match currentUserItem w with
  | Some u =>
      {| usersItem := usersItem w; currentUserItem := currentUserItem w;
         user := Some u; authError := authError w |}
  | None => w
  end.

(** [login] *)
Definition login (wr : Writes) (email' password' : string) (w : World) : bool * World :=
  match readUsers (usersItem w) with
  | None => (false, withError "An unexpected error occurred during login." w)
  | Some users =>
      match List.find (sameEmail email') users with
      | Some foundUser =>
          if negb (viaGoogle foundUser) && bool_decide (password foundUser = Some password')
          then
            if currentWriteThrows wr
            then (false,
                  signInCaught (usersItem w) foundUser
                    "An unexpected error occurred during login." w)
            else (true, signedIn (usersItem w) foundUser)
          else (false, withError "Invalid email or password." w)
      | None => (false, withError "Invalid email or password." w)
      end
  end.

(** [signUp]; [now] is the clock reading that becomes the id. *)
Definition signUp (wr : Writes) (username' email' password' : string) (now : Z) (w : World)
    : bool * World :=
  match readUsers (usersItem w) with
  | None => (false, withError "An unexpected error occurred during sign-up." w)
  | Some users =>
      if existsb (sameEmail email') users
      then (false, withError "An account with this email already exists." w)
      else
        let newUser :=
          {| id := JS.toString now; email := email'; password := Some password';
             username := username'; avatar := None; isGoogleUser := None |} in
        let updatedUsers := users ++ [newUser] in
        if usersWriteThrows wr
        then (false, withError "An unexpected error occurred during sign-up." w)
        else if currentWriteThrows wr
        then (false,
              signInCaught (UsersParsed updatedUsers) newUser
                "An unexpected error occurred during sign-up." w)
        else (true, signedIn (UsersParsed updatedUsers) newUser)
  end.

(** The claims [handleGoogleSignIn] reads from a decoded credential. *)
Record GooglePayload := {
  payloadEmail : string;
  name : string;
  picture : string;
  sub : string
}.

(** [handleGoogleSignIn]; [payload] is what [jwt_decode] returns, [None]
    for [null]. *)
Definition handleGoogleSignIn (wr : Writes) (payload : option GooglePayload) (w : World)
    : World :=
  match payload with
  | None => withError "Invalid Google sign-in credential." w
  | Some p =>
      match readUsers (usersItem w) with
      | None => withError "An unexpected error occurred with Google Sign-In." w
      | Some users =>
          match List.find (sameEmail (payloadEmail p)) users with
          | Some userToLogin =>
              if negb (viaGoogle userToLogin)
              then withError
                     "An account with this email exists. Please sign in with your password." w
              else if currentWriteThrows wr
              then signInCaught (usersItem w) userToLogin
                     "An unexpected error occurred with Google Sign-In." w
              else signedIn (usersItem w) userToLogin
          | None =>
              let userToLogin :=
                {| id := sub p; email := payloadEmail p; password := None;
                   username := name p; avatar := Some (picture p);
                   isGoogleUser := Some true |} in
              let updatedUsers := users ++ [userToLogin] in
              if usersWriteThrows wr
              then withError "An unexpected error occurred with Google Sign-In." w
              else if currentWriteThrows wr
              then signInCaught (UsersParsed updatedUsers) userToLogin
                     "An unexpected error occurred with Google Sign-In." w
              else signedIn (UsersParsed updatedUsers) userToLogin
          end
      end
  end.

(** [logout]: [setUser(null)], then [removeItem], whose exception is
    swallowed. *)
Definition logout (wr : Writes) (w : World) : World :=
  {| usersItem := usersItem w;
     currentUserItem := if currentWriteThrows wr then currentUserItem w else None;
     user := None;
     authError := authError w |}.

(** [{ ...user, avatar: avatarDataUrl }] *)
Definition withAvatar (avatarDataUrl : string) (u : User) : User :=
  {| id := id u; email := email u; password := password u; username := username u;
     avatar := Some avatarDataUrl; isGoogleUser := isGoogleUser u |}.

(** [updateUserAvatar]: [setUser] comes first; the [catch] swallows what
    the write of the current user, the read of the accounts or the write of
    the accounts throws, and keeps what was done before. *)
Definition updateUserAvatar (wr : Writes) (avatarDataUrl : string) (w : World) : World :=
  match user w with
  | None => w
  | Some u =>
      let updatedUser := withAvatar avatarDataUrl u in
      if currentWriteThrows wr
      then {| usersItem := usersItem w; currentUserItem := currentUserItem w;
              user := Some updatedUser; authError := authError w |}
      else
        {| usersItem :=
             match readUsers (usersItem w) with
             | Some users =>
                 let updatedUsers :=
                   List.map (λ x, if bool_decide (id x = id u) then updatedUser else x)
                     users in
                 if usersWriteThrows wr then usersItem w else UsersParsed updatedUsers
             | None => usersItem w
             end;
           currentUserItem := Some updatedUser;
           user := Some updatedUser;
           authError := authError w |}
  end.

(** A call of the hook from the sign-in screen, with the writes that throw
    during it. *)
Inductive AuthCall :=
| callLogin (wr : Writes) (email' password' : string)
| callSignUp (wr : Writes) (username' email' password' : string) (now : Z)
| callGoogle (wr : Writes) (payload : option GooglePayload)
| callLogout (wr : Writes).

Definition authStep (w : World) (c : AuthCall) : World :=
  match c with
  | callLogin wr e p => snd (login wr e p w)
  | callSignUp wr n e p now => snd (signUp wr n e p now w)
  | callGoogle wr payload => handleGoogleSignIn wr payload w
  | callLogout wr => logout wr w
  end.

(** Every call of the hook, the avatar change of the main screen included. *)
Inductive AnyCall :=
| fromSignIn (c : AuthCall)
| callAvatar (wr : Writes) (avatarDataUrl : string).

Definition anyStep (w : World) (c : AnyCall) : World :=
  match c with
  | fromSignIn c' => authStep w c'
  | callAvatar wr url => updateUserAvatar wr url w
  end.

(** The writes that throw during a call. *)
Definition writesOf (c : AnyCall) : Writes :=
  match c with
  | fromSignIn (callLogin wr _ _) => wr
  | fromSignIn (callSignUp wr _ _ _ _) => wr
  | fromSignIn (callGoogle wr _) => wr
  | fromSignIn (callLogout wr) => wr
  | callAvatar wr _ => wr
  end.

(** A page load: the state cells start from their initial values and the
    mount effect runs; the storage is what it was. *)
Definition reload (w : World) : World :=
  restore {| usersItem := usersItem w; currentUserItem := currentUserItem w;
             user := None; authError := None |}.

(** The stored accounts, none when the item is absent or unreadable. *)
Definition accounts (w : World) : list User :=
  default [] (readUsers (usersItem w)).

(** No two stored accounts share an email, letter case aside. *)
Definition uniqueEmails (users : list User) : Prop :=
  NoDup (List.map (λ u, JS.toLowerCase (email u)) users).

End UseAuth.

(** * Properties *)

(** ** Facts about the JavaScript primitives *)
Section JSFacts.
Import Spec.



Lemma truthy_false (s : string) : JS.truthy s = false ↔ s = "".
Proof. destruct s; simpl; split; congruence. Qed.

Lemma trimEnd_empty (s : string) : JS.trimEnd s = "" ↔ blank s = true.
Proof.
  induction s as [|c s IH]; simpl; [done|].
  destruct (JS.is_space c); simpl.
  - destruct (JS.trimEnd s) eqn:E; simpl.
    + split; [intros _; by apply IH | done].
    + split; [done | intros Hb; by apply IH in Hb].
  - split; done.
Qed.

Lemma blank_trimStart (s : string) : blank (JS.trimStart s) = blank s.
Proof.
  induction s as [|c s IH]; simpl; [done|].
  destruct (JS.is_space c) eqn:E; simpl; [done | by rewrite E].
Qed.

(** [trim] returns the empty string exactly on blank input. *)
Lemma trim_empty (s : string) : JS.trim s = "" ↔ blank s = true.
Proof. unfold JS.trim. by rewrite trimEnd_empty, blank_trimStart. Qed.

(** What [trimStart] removes is white space, and what it leaves does not
    start with white space. *)
Lemma trimStart_split (s : string) :
  ∃ ws, blank ws = true ∧ s = ws +:+ JS.trimStart s ∧
        match JS.trimStart s with
        | EmptyString => True
        | String c _ => JS.is_space c = false
        end.
Proof.
  induction s as [|c s (ws & Hws & Hs & Hhd)]; simpl.
  - by exists "".
  - destruct (JS.is_space c) eqn:E.
    + exists (String c ws). simpl. rewrite E, Hws. split; [done|].
      split; [|done].
      change (String c s = String c (ws +:+ JS.trimStart s)). congruence.
    + exists "". simpl. by rewrite E.
Qed.

Lemma trimEnd_split (s : string) :
  ∃ ws, blank ws = true ∧ s = JS.trimEnd s +:+ ws ∧
        match lastUnit (JS.trimEnd s) with
        | None => True
        | Some c => JS.is_space c = false
        end.
Proof.
  induction s as [|c s (ws & Hws & Hs & Hlast)]; simpl.
  - by exists "".
  - destruct (JS.trimEnd s) as [|d r] eqn:E; simpl in *.
    + subst s. destruct (JS.is_space c) eqn:Ec; simpl.
      * exists (String c ws). simpl. by rewrite Ec, Hws.
      * exists ws. by rewrite Ec.
    + rewrite andb_false_r. exists ws. split; [done|].
      split; [|done].
      change (String c s = String c (String d r +:+ ws)). congruence.
Qed.

Lemma trimEnd_head (s : string) :
  match s with
  | EmptyString => True
  | String c _ =>
      JS.is_space c = false →
      match JS.trimEnd s with EmptyString => False | String d _ => d = c end
  end.
Proof.
  destruct s as [|c s]; simpl; [done|]. intros ->. by simpl.
Qed.

(** [trim] peels white space off both ends and nothing else. *)
Lemma trim_split (s : string) :
  ∃ ws1 ws2,
    blank ws1 = true ∧ blank ws2 = true ∧ s = ws1 +:+ JS.trim s +:+ ws2 ∧
    match JS.trim s with
    | EmptyString => True
    | String c _ => JS.is_space c = false
    end ∧
    match lastUnit (JS.trim s) with
    | None => True
    | Some c => JS.is_space c = false
    end.
Proof.
  destruct (trimStart_split s) as (ws1 & H1 & Hs1 & Hhd).
  destruct (trimEnd_split (JS.trimStart s)) as (ws2 & H2 & Hs2 & Hlast).
  exists ws1, ws2. unfold JS.trim. repeat split; try done.
  - by rewrite <- Hs2.
  - pose proof (trimEnd_head (JS.trimStart s)) as Hh.
    destruct (JS.trimStart s) as [|c r]; simpl in *; [done|].
    specialize (Hh Hhd). destruct (JS.is_space c && _); [done|]. by simpl.
Qed.

Lemma substring0_length (n : nat) (s : string) :
  String.length (JS.substring0 n s) = n `min` String.length s.
Proof.
  revert s; induction n as [|n IH]; intros [|c s]; simpl; try done.
  by rewrite IH.
Qed.

Lemma substring0_prefix (n : nat) (s : string) :
  ∃ rest, s = JS.substring0 n s +:+ rest.
Proof.
  revert s; induction n as [|n IH]; intros s; simpl.
  - by exists s.
  - destruct s as [|c s]; [by exists ""|].
    destruct (IH s) as [rest Hr]. exists rest.
    change (String c s = String c (JS.substring0 n s +:+ rest)). congruence.
Qed.

End JSFacts.

(** ** Facts about sorting newest first *)
Section SortFacts.
Import Types UseChatHistory Spec.

Lemma sort_insert_perm {A} (cmp : A → A → Z) (a : A) (l : list A) :
  JS.sort_insert cmp a l ≡ₚ a :: l.
Proof.
  induction l as [|b l IH]; simpl; [done|].
  destruct (cmp a b <=? 0)%Z; [done|].
  rewrite IH. apply Permutation_swap.
Qed.

Lemma sort_perm {A} (cmp : A → A → Z) (l : list A) : JS.sort cmp l ≡ₚ l.
Proof.
  induction l as [|a l IH]; simpl; [done|].
  by rewrite sort_insert_perm, IH.
Qed.

Lemma sort_length {A} (cmp : A → A → Z) (l : list A) :
  length (JS.sort cmp l) = length l.
Proof. by rewrite sort_perm. Qed.

Lemma sort_insert_head {A} (cmp : A → A → Z) (a : A) (l : list A) :
  JS.sort_insert cmp a l !! 0 =
  Some (match l with
        | [] => a
        | b :: _ => if (cmp a b <=? 0)%Z then a else b
        end).
Proof. destruct l as [|b l]; simpl; [done|]. by destruct (cmp a b <=? 0)%Z. Qed.

(** The head of the sorted copy is the newest session. *)
Lemma sort_newest (l : list StoredChatSession) :
  JS.sort newestFirst l !! 0 = newest l.
Proof.
  induction l as [|a l IH]; simpl; [done|].
  rewrite sort_insert_head, <- IH.
  destruct (JS.sort newestFirst l) as [|b l']; simpl; [done|].
  unfold newestFirst.
  replace (createdAt b - createdAt a <=? 0)%Z with (createdAt b <=? createdAt a)%Z.
  - by destruct (createdAt b <=? createdAt a)%Z.
  - destruct (Z.leb_spec (createdAt b) (createdAt a)),
             (Z.leb_spec (createdAt b - createdAt a) 0); (done || lia).
Qed.

Lemma newest_is_Some (l : list StoredChatSession) : l ≠ [] → is_Some (newest l).
Proof.
  destruct l as [|a l]; [done|]. intros _. simpl.
  destruct (newest l) as [m|]; [|by eexists].
  destruct (createdAt m <=? createdAt a)%Z; by eexists.
Qed.

(** [newest] returns a member with the greatest creation timestamp. *)
Lemma newest_greatest (l : list StoredChatSession) (m : StoredChatSession) :
  newest l = Some m →
  m ∈ l ∧ ∀ s, s ∈ l → (createdAt s ≤ createdAt m)%Z.
Proof.
  revert m; induction l as [|a l IH]; intros m; simpl; [done|].
  destruct (newest l) as [m'|] eqn:E.
  - destruct (IH m' eq_refl) as [Hin Hmax].
    destruct (Z.leb_spec (createdAt m') (createdAt a)); intros [= <-].
    + split; [left|]. intros s [->|Hs]%elem_of_cons; [lia|].
      specialize (Hmax s Hs). lia.
    + split; [by right|]. intros s [->|Hs]%elem_of_cons; [lia | by apply Hmax].
  - intros [= <-]. destruct l as [|b l].
    + split; [left|]. by intros s ->%list_elem_of_singleton.
    + destruct (newest_is_Some (b :: l)) as [? ?]; [done | congruence].
Qed.

(** On equal timestamps the earliest session of the collection wins:
    every session before the chosen one is strictly older. *)
Lemma newest_earliest (l : list StoredChatSession) (m : StoredChatSession) :
  newest l = Some m →
  ∃ pre post, l = pre ++ m :: post ∧ Forall (λ s, (createdAt s < createdAt m)%Z) pre.
Proof.
  revert m; induction l as [|a l IH]; intros m; simpl; [done|].
  destruct (newest l) as [m'|] eqn:E.
  - destruct (IH m' eq_refl) as (pre & post & -> & Hpre).
    destruct (Z.leb_spec (createdAt m') (createdAt a)); intros [= <-].
    + by exists [], (pre ++ m' :: post).
    + exists (a :: pre), post. split; [done|]. by constructor.
  - intros [= <-]. by exists [], l.
Qed.

(** Sorting a collection that is already ordered newest first changes
    nothing. *)
Lemma sort_ordered (l : list StoredChatSession) :
  newestFirstOrdered l → JS.sort newestFirst l = l.
Proof.
  induction 1 as [|a l Hs IH Hhd]; simpl; [done|].
  rewrite IH. destruct Hhd as [|b l Hab]; simpl; [done|].
  unfold newestFirst. destruct (Z.leb_spec (createdAt b - createdAt a) 0); [done | lia].
Qed.

End SortFacts.

(** ** The session store *)
Section Store.
Import Types UseChatHistory Spec.

Lemma elem_of_List_filter {A} (f : A → bool) (l : list A) (x : A) :
  x ∈ List.filter f l ↔ x ∈ l ∧ f x = true.
Proof. rewrite !list_elem_of_In. apply filter_In. Qed.

(** The head of a sorted non-empty collection is one of its sessions. *)
Lemma sort_head_member (l : list StoredChatSession) :
  l ≠ [] →
  ∃ m, JS.sort newestFirst l !! 0 = Some m ∧ newest l = Some m ∧ m ∈ l.
Proof.
  intros Hne. destruct (newest_is_Some l Hne) as [m Hm].
  exists m. rewrite sort_newest. split; [done|]. split; [done|].
  by apply newest_greatest.
Qed.

Lemma startNewChat_activeExists userId loadTime isInitial tId tCreated st :
  activeExists (fst (startNewChat userId loadTime isInitial tId tCreated st)).
Proof.
  eexists. split; [done|]. simpl.
  exists (newSession userId loadTime tId tCreated). split; [|done].
  destruct isInitial; left.
Qed.

Lemma load_activeExists userId loadTime stored tId tCreated st :
  activeExists (load userId loadTime stored tId tCreated st).
Proof.
  unfold load.
  destruct (readAll stored) as [allSessions|]; simpl.
  - destruct (List.filter _ allSessions) as [|x l] eqn:E.
    + eexists. split; [done|]. eexists. split; [left | done].
    + destruct (sort_head_member (x :: l)) as (m & Hhd & _ & Hin); [done|].
      exists (id m). cbn [activeSessionId sessions]. rewrite Hhd. split; [done|].
      exists m. split; [|done]. by rewrite sort_perm.
  - eexists. split; [done|]. eexists. split; [left | done].
Qed.

Lemma deleteChatSession_activeExists userId loadTime sessionId tId tCreated st :
  activeExists st →
  activeExists (deleteChatSession userId loadTime sessionId tId tCreated st).
Proof.
  intros (a & Ha & s & Hs & Hid). unfold deleteChatSession.
  case_bool_decide as Hact.
  - destruct (List.filter _ (sessions st)) as [|x l] eqn:E.
    + eexists. split; [done|]. eexists. split; [left | done].
    + destruct (sort_head_member (x :: l)) as (m & Hhd & _ & Hin); [done|].
      exists (id m). cbn [activeSessionId sessions]. rewrite Hhd. split; [done|].
      by exists m.
  - exists a. simpl. split; [done|]. exists s. split; [|done].
    apply elem_of_List_filter. split; [done|].
    apply negb_true_iff, bool_decide_eq_false. congruence.
Qed.

Lemma step_activeExists userId loadTime st c :
  activeExists st → activeExists (step userId loadTime st c).
Proof.
  destruct c; simpl.
  - intros _. apply startNewChat_activeExists.
  - apply deleteChatSession_activeExists.
Qed.

Lemma run_activeExists userId loadTime calls st :
  activeExists st → activeExists (run userId loadTime calls st).
Proof.
  revert st; induction calls as [|c calls IH]; intros st Hst; simpl; [done|].
  apply IH. by apply step_activeExists.
Qed.

(** C1. From a freshly loaded state, after any sequence of [createSession]
    and [deleteSession] calls, the active-session id is set to one id and a
    session with that id is in the in-memory collection. *)
Theorem C1_active_session_exists
    (userId : string) (loadTime : Z) (stored : Stored) (tId tCreated : Z)
    (calls : list Call) :
  activeExists
    (run userId loadTime calls (load userId loadTime stored tId tCreated initialState)).
Proof. apply run_activeExists, load_activeExists. Qed.

(** C3. Deleting the active session: when other sessions remain, exactly
    the sessions carrying the deleted id leave the collection and the
    remaining session with the greatest creation timestamp becomes active;
    when none remains, the collection becomes one freshly seeded session,
    which becomes active. *)
Theorem C3_delete_active
    (userId : string) (loadTime : Z) (sessionId : string) (tId tCreated : Z)
    (st : State) :
  activeSessionId st = Some sessionId →
  let rest := List.filter (λ s, negb (bool_decide (id s = sessionId))) (sessions st) in
  let st' := deleteChatSession userId loadTime sessionId tId tCreated st in
  (∀ s, s ∈ rest ↔ s ∈ sessions st ∧ id s ≠ sessionId) ∧
  (rest ≠ [] →
     sessions st' = rest ∧
     ∃ m, activeSessionId st' = Some (id m) ∧ newest rest = Some m ∧ m ∈ rest ∧
          ∀ s, s ∈ rest → (createdAt s ≤ createdAt m)%Z) ∧
  (rest = [] →
     ∃ fresh, sessions st' = [fresh] ∧ activeSessionId st' = Some (id fresh) ∧
              seeded loadTime fresh ∧ Types.userId fresh = userId).
Proof.
  intros Hact rest st'. split; [|split].
  - intros s. unfold rest. rewrite elem_of_List_filter.
    by rewrite negb_true_iff, bool_decide_eq_false.
  - intros Hne. subst st'. unfold deleteChatSession.
    rewrite bool_decide_eq_true_2 by done. fold rest.
    destruct rest as [|x l] eqn:E; [done|].
    destruct (sort_head_member (x :: l)) as (m & Hhd & Hnew & Hin); [done|].
    cbn [activeSessionId sessions]. split; [done|]. exists m. rewrite Hhd. split; [done|].
    split; [done|]. split; [done|]. by apply newest_greatest.
  - intros Hnil. subst st'. unfold deleteChatSession.
    rewrite bool_decide_eq_true_2 by done. fold rest. rewrite Hnil.
    by exists (newSession userId loadTime tId tCreated).
Qed.

End Store.

(** ** Scenarios and round trip of the session store *)
Section StoreRoundTrip.
Import Types UseChatHistory Spec.

(** The scenario of the specification: deleting the active [S2] leaves
    [S1] alone and active; deleting the last session seeds a fresh one. *)
Lemma C3_delete_active_witness :
  (let st' := deleteChatSession "A" 0 "200" 300 300 Scenario.twoSessions in
   sessions st' = [Scenario.S1] ∧ activeSessionId st' = Some "100") ∧
  (let st' := deleteChatSession "A" 0 "100" 300 301 Scenario.oneSession in
   ∃ fresh, sessions st' = [fresh] ∧ activeSessionId st' = Some (id fresh) ∧
            seeded 0 fresh ∧ Types.userId fresh = "A").
Proof.
  split.
  - destruct (C3_delete_active "A" 0 "200" 300 300 Scenario.twoSessions eq_refl)
      as (_ & Hrest & _).
    destruct Hrest as (Hs & m & Ha & Hm & _); [by vm_compute|].
    split; [exact Hs|]. rewrite Ha. vm_compute in Hm. by injection Hm as <-.
  - destruct (C3_delete_active "A" 0 "100" 300 301 Scenario.oneSession eq_refl)
      as (_ & _ & Hnil).
    apply Hnil. by vm_compute.
Defined.

Lemma filter_all {A} (f : A → bool) (l : list A) :
  Forall (λ x, f x = true) l → List.filter f l = l.
Proof. induction 1 as [|x l Hx _ IH]; simpl; [done|]. by rewrite Hx, IH. Qed.

Lemma filter_none {A} (f : A → bool) (l : list A) :
  Forall (λ x, f x = false) l → List.filter f l = [].
Proof. induction 1 as [|x l Hx _ IH]; simpl; [done|]. by rewrite Hx. Qed.

Lemma filter_negb_filter {A} (f : A → bool) (l : list A) :
  List.filter f (List.filter (λ x, negb (f x)) l) = [].
Proof.
  apply filter_none, Forall_forall. intros x [_ Hx]%elem_of_List_filter.
  by apply negb_true_iff.
Qed.

(** What a load that follows a save of [l] puts in memory, when the stored
    value can be read, the write succeeds and [l] holds sessions of the user
    only. *)
Lemma load_save userId loadTime stored all l tId tCreated st :
  readAll stored = Some all →
  Forall (λ s, Types.userId s = userId) l →
  l ≠ [] →
  sessions (load userId loadTime (save userId l stored false) tId tCreated st)
  = JS.sort newestFirst l.
Proof.
  intros Hall Hown Hne. unfold save, load. rewrite Hall. simpl.
  rewrite List.filter_app, filter_negb_filter. simpl.
  rewrite filter_all.
  - by destruct l.
  - eapply Forall_impl; [exact Hown|]. intros s Hs. by apply bool_decide_eq_true.
Qed.

(** Save followed by load is not the identity on every collection of the
    user's sessions: one that is not ordered newest first comes back
    reordered, the empty one comes back as one seeded session, and after a
    save into a document that cannot be read, or whose write throws, the
    load does not find what was saved. *)
Lemma C4_save_load_counterexample :
  Forall (λ s, Types.userId s = "A") [Scenario.S1; Scenario.S2] ∧
  sessions (load "A" 0 (save "A" [Scenario.S1; Scenario.S2] NoItem false) 300 300 initialState)
  ≠ [Scenario.S1; Scenario.S2] ∧
  sessions (load "A" 0 (save "A" [] NoItem false) 300 300 initialState) ≠ [] ∧
  sessions (load "A" 0 (save "A" [Scenario.S2; Scenario.S1] Throws false) 300 300 initialState)
  ≠ [Scenario.S2; Scenario.S1] ∧
  sessions (load "A" 0 (save "A" [Scenario.S2; Scenario.S1] NoItem true) 300 300 initialState)
  ≠ [Scenario.S2; Scenario.S1].
Proof.
  split; [by repeat constructor|]. repeat split; vm_compute; discriminate.
Qed.

(** C4, amended. Save leaves the stored sessions of every other user as
    they were, in their order, for every stored document and every
    collection of the user's sessions, whether or not its write succeeds;
    and when the document can be read, the write succeeds and the
    collection is non-empty and ordered newest first, save followed by load
    for the same user yields an equal collection. *)
Theorem C4_save_load
    (userId : string) (loadTime : Z) (stored : Stored)
    (l : list StoredChatSession) (tId tCreated : Z) (setItemThrows : bool) :
  Forall (λ s, Types.userId s = userId) l →
  (List.filter (λ s, negb (bool_decide (Types.userId s = userId)))
     <$> readAll (save userId l stored setItemThrows)
   = List.filter (λ s, negb (bool_decide (Types.userId s = userId)))
     <$> readAll stored) ∧
  (setItemThrows = false → is_Some (readAll stored) →
   l ≠ [] → newestFirstOrdered l →
   sessions (load userId loadTime (save userId l stored setItemThrows) tId tCreated
               initialState) = l).
Proof.
  intros Hown. split.
  - unfold save. destruct (readAll stored) as [all|] eqn:Hall; [|by rewrite Hall].
    destruct setItemThrows; [by rewrite Hall|]. cbn [readAll fmap option_fmap option_map].
    f_equal. rewrite List.filter_app. rewrite (filter_none _ l).
    + rewrite app_nil_r. apply filter_all, Forall_forall.
      by intros s [_ Hs]%elem_of_List_filter.
    + eapply Forall_impl; [exact Hown|]. intros s Hs. simpl.
      by rewrite bool_decide_eq_true_2.
  - intros -> [all Hall] Hne Hord.
    rewrite (load_save _ _ _ all) by done. by apply sort_ordered.
Qed.

Lemma C4_save_load_witness :
  sessions (load "A" 0
              (save "A" [Scenario.S2; Scenario.S1] (Parsed [Scenario.S3; Scenario.S1]) false)
              300 300 initialState)
  = [Scenario.S2; Scenario.S1] ∧
  readAll (save "A" [] (Parsed [Scenario.S3; Scenario.S1]) false) = Some [Scenario.S3].
Proof.
  destruct (C4_save_load "A" 0 (Parsed [Scenario.S3; Scenario.S1])
              [Scenario.S2; Scenario.S1] 300 300 false) as [_ Hround].
  { repeat constructor. }
  destruct (C4_save_load "A" 0 (Parsed [Scenario.S3; Scenario.S1]) [] 300 300 false)
    as [Hothers _].
  { constructor. }
  split.
  - apply Hround; [reflexivity | by eexists | discriminate |].
    repeat constructor; simpl; lia.
  - reflexivity.
Defined.

End StoreRoundTrip.

(** ** The session assembler *)
Section Assembler.
Import Types UseChatHistory Spec.

Lemma upstreamOf_slice (s : StoredChatSession) :
  upstreamOf s = List.map toContent (JS.slice1 (messages s)).
Proof. unfold upstreamOf, JS.slice1. by destruct (messages s). Qed.

(** The context history of the code is the context prefix. *)
Lemma contextHistory_prefix (all : list StoredChatSession) (ctx : gset string) :
  List.map toContent
    (List.flat_map (λ s, JS.slice1 (messages s))
       (List.filter (λ s, bool_decide (id s ∈ ctx)) all))
  = contextPrefix all ctx.
Proof.
  induction all as [|s all IH]; simpl; [done|].
  rewrite <- IH. destruct (decide (id s ∈ ctx)) as [Hin|Hout].
  - rewrite bool_decide_eq_true_2 by done. simpl.
    by rewrite List.map_app, upstreamOf_slice.
  - by rewrite bool_decide_eq_false_2.
Qed.

Lemma contextPrefix_app (l1 l2 : list StoredChatSession) (ctx : gset string) :
  contextPrefix (l1 ++ l2) ctx = contextPrefix l1 ctx ++ contextPrefix l2 ctx.
Proof.
  induction l1 as [|s l1 IH]; simpl; [done|]. by rewrite IH, app_assoc.
Qed.

(** [find] returns the first session that carries the id. *)
Lemma find_firstWithId (target : string) (all : list StoredChatSession)
    (a : StoredChatSession) :
  firstWithId target all a →
  List.find (λ s, bool_decide (id s = target)) all = Some a.
Proof.
  intros (pre & post & -> & Hid & Hpre).
  induction Hpre as [|s pre Hs _ IH]; simpl.
  - by rewrite bool_decide_eq_true_2.
  - by rewrite bool_decide_eq_false_2.
Qed.

Lemma combinedHistory_upstream target all ctx a :
  firstWithId target all a →
  combinedHistory target all ctx = Some (upstreamHistory all ctx a).
Proof.
  intros Ha. unfold combinedHistory. rewrite (find_firstWithId _ _ _ Ha).
  by rewrite contextHistory_prefix, <- upstreamOf_slice.
Qed.

(** C2. When the collection holds the active session, the history handed
    upstream is: for each session of the collection whose id is in the
    context set, in collection order, its messages without the first one,
    then the active session's messages without the first one; every
    message reduced to its role and API-facing parts. *)
Theorem C2_upstream_history
    (target : string) (all : list StoredChatSession) (ctx : gset string)
    (web : bool) (a : StoredChatSession) :
  firstWithId target all a →
  combinedHistory target all ctx = Some (upstreamHistory all ctx a) ∧
  ∀ key, key ≠ "" →
    ∃ tools,
      recreateGeminiSession (Some key) target all ctx web
      = assigned (Some {| GenAI.history := upstreamHistory all ctx a;
                          GenAI.tools := tools |}).
Proof.
  intros Ha. split; [by apply combinedHistory_upstream|].
  intros key Hkey. unfold recreateGeminiSession.
  rewrite (combinedHistory_upstream _ _ _ _ Ha).
  unfold GeminiService.createChatSession. destruct key; [done|]. by eexists.
Qed.

Lemma C2_upstream_history_witness :
  combinedHistory "200" [Scenario.T2; Scenario.T1] {[ "100" ]}
  = Some [toContent Scenario.hello; toContent Scenario.reply; toContent Scenario.question].
Proof.
  destruct (C2_upstream_history "200" [Scenario.T2; Scenario.T1] {[ "100" ]} false
              Scenario.T2) as [H _].
  - exists [], [Scenario.T1]. repeat split. constructor.
  - rewrite H. unfold upstreamHistory. simpl.
    rewrite decide_False by (intros ?%elem_of_singleton; discriminate).
    rewrite decide_True by (by apply elem_of_singleton).
    reflexivity.
Defined.

(** C10. When the active session's id is in the context set, its messages
    without the welcome message occur twice in the history handed
    upstream: once inside the context prefix, once as the final segment. *)
Theorem C10_active_in_context_twice
    (target : string) (all : list StoredChatSession) (ctx : gset string)
    (a : StoredChatSession) :
  firstWithId target all a →
  target ∈ ctx →
  ∃ before after,
    contextPrefix all ctx = before ++ upstreamOf a ++ after ∧
    combinedHistory target all ctx
    = Some ((before ++ upstreamOf a ++ after) ++ upstreamOf a).
Proof.
  intros Ha Hin. rewrite (combinedHistory_upstream _ _ _ _ Ha).
  destruct Ha as (pre & post & -> & Hid & _).
  exists (contextPrefix pre ctx), (contextPrefix post ctx).
  unfold upstreamHistory. rewrite contextPrefix_app. simpl.
  rewrite decide_True by (by rewrite Hid). done.
Qed.

Lemma C10_active_in_context_twice_witness :
  combinedHistory "200" [Scenario.T2; Scenario.T1] {[ "200" ]}
  = Some [toContent Scenario.question; toContent Scenario.question].
Proof.
  destruct (C10_active_in_context_twice "200" [Scenario.T2; Scenario.T1] {[ "200" ]}
              Scenario.T2) as (before & after & Hctx & H).
  - exists [], [Scenario.T1]. repeat split. constructor.
  - by apply elem_of_singleton.
  - rewrite H, <- Hctx. simpl.
    rewrite decide_True by (by apply elem_of_singleton).
    rewrite decide_False by (intros ?%elem_of_singleton; discriminate).
    reflexivity.
Defined.

End Assembler.

(** ** Updates of one session of the collection *)
Section SessionUpdates.
Import Types UseChatHistory Spec.

Lemma lookup_List_map {A B} (f : A → B) (l : list A) (i : nat) :
  List.map f l !! i = f <$> l !! i.
Proof.
  revert i; induction l as [|x l IH]; intros [|i]; simpl; done.
Qed.

Lemma find_filter_head {A} (f : A → bool) (l : list A) :
  List.find f l = List.filter f l !! 0.
Proof. induction l as [|x l IH]; simpl; [done|]. by destruct (f x). Qed.

Lemma find_firstText (ds : list DisplayMessagePart) :
  List.find (λ p, JS.truthy_opt (text p)) ds ≫= text = firstText ds.
Proof.
  induction ds as [|d ds IH]; simpl; [done|].
  destruct (text d) as [[|c t]|] eqn:E; simpl; done.
Qed.

Lemma firstText_truthy (ds : list DisplayMessagePart) (t : string) :
  firstText ds = Some t → JS.truthy t = true.
Proof.
  induction ds as [|d ds IH]; simpl; [done|].
  destruct (text d) as [[|c t']|]; try done. by intros [= <-].
Qed.

(** [generateTitle] in terms of the only user message. *)
Lemma generateTitle_single (msgs : list DisplayMessage) (m : DisplayMessage) :
  List.filter isUser msgs = [m] →
  generateTitle msgs =
  match firstText (displayParts m) with
  | Some t =>
      if MAX_TITLE_LENGTH <? String.length t
      then JS.substring0 MAX_TITLE_LENGTH t +:+ "..." else t
  | None => "New Chat"
  end.
Proof.
  intros Hm. unfold generateTitle.
  rewrite find_filter_head, Hm. simpl. rewrite find_firstText.
  destruct (firstText (displayParts m)) as [t|] eqn:E; simpl; [|done].
  by rewrite (firstText_truthy _ _ E).
Qed.

(** C5. A session with the default title whose updated message list holds
    exactly one user message: a first text fragment longer than 35 gives
    its first 35 code units followed by [...]; one of at most 35 is taken
    verbatim; without a text fragment the title is the default string. *)
Theorem C5_auto_title
    (sessionId : string) (updater : React.SetStateAction (list DisplayMessage))
    (prev : list StoredChatSession) (i : nat) (s : StoredChatSession)
    (m : DisplayMessage) :
  prev !! i = Some s →
  id s = sessionId →
  title s = "New Chat" →
  List.filter isUser (React.resolve updater (messages s)) = [m] →
  ∃ s', updateSessionMessages sessionId updater prev !! i = Some s' ∧
        messages s' = React.resolve updater (messages s) ∧
        match firstText (displayParts m) with
        | Some t =>
            (35 < String.length t →
               ∃ first35 rest, t = first35 +:+ rest ∧ String.length first35 = 35 ∧
                               title s' = first35 +:+ "...") ∧
            (String.length t ≤ 35 → title s' = t)
        | None => title s' = "New Chat"
        end.
Proof.
  intros Hi Hid Htitle Hm. exists (updateOne sessionId updater s).
  split; [unfold updateSessionMessages; by rewrite lookup_List_map, Hi|].
  unfold updateOne. rewrite bool_decide_eq_true_2 by done.
  cbn [messages title]. split; [done|].
  rewrite Hm, (bool_decide_eq_true_2 _ Htitle). cbn [length Nat.eqb andb].
  rewrite (generateTitle_single _ _ Hm).
  destruct (firstText (displayParts m)) as [t|]; [|done].
  unfold MAX_TITLE_LENGTH. split.
  - intros Hlong. destruct (Nat.ltb_spec 35 (String.length t)); [|lia].
    destruct (substring0_prefix 35 t) as [rest Hrest].
    exists (JS.substring0 35 t), rest. split; [done|]. split; [|done].
    rewrite substring0_length. lia.
  - intros Hshort. destruct (Nat.ltb_spec 35 (String.length t)); [lia | done].
Qed.

(** The scenario of the specification: [hello world] as the first user
    message of a session titled [New Chat] becomes its title. *)
Lemma C5_auto_title_witness :
  ∃ s', updateSessionMessages "100" (React.byFunction (MainApp.append Scenario.hello))
          [Scenario.S2; Scenario.S1] !! 1 = Some s' ∧
        title s' = "hello world".
Proof.
  destruct (C5_auto_title "100" (React.byFunction (MainApp.append Scenario.hello))
              [Scenario.S2; Scenario.S1] 1 Scenario.S1 Scenario.hello)
    as (s' & Hs' & _ & Ht); try reflexivity.
  exists s'. split; [exact Hs'|]. simpl in Ht. apply Ht. lia.
Defined.

(** C8. [renameSession]: a title that is blank leaves every session as it
    was; otherwise the sessions with that id get exactly the trimmed
    title, keep everything else, and no other session changes.  The
    trimmed title is the given one without its leading and trailing white
    space. *)
Theorem C8_rename
    (sessionId newTitle : string) (prev : list StoredChatSession) :
  (JS.trim newTitle = "" ↔ blank newTitle = true) ∧
  (blank newTitle = true → updateSessionTitle sessionId newTitle prev = prev) ∧
  (blank newTitle = false →
     length (updateSessionTitle sessionId newTitle prev) = length prev ∧
     ∀ i s, prev !! i = Some s →
       ∃ s', updateSessionTitle sessionId newTitle prev !! i = Some s' ∧
             (id s ≠ sessionId → s' = s) ∧
             (id s = sessionId →
                title s' = JS.trim newTitle ∧ id s' = id s ∧
                messages s' = messages s ∧ createdAt s' = createdAt s ∧
                userId s' = userId s)) ∧
  (∃ ws1 ws2,
     blank ws1 = true ∧ blank ws2 = true ∧
     newTitle = ws1 +:+ JS.trim newTitle +:+ ws2 ∧
     match JS.trim newTitle with
     | EmptyString => True
     | String c _ => JS.is_space c = false
     end ∧
     match lastUnit (JS.trim newTitle) with
     | None => True
     | Some c => JS.is_space c = false
     end).
Proof.
  split; [apply trim_empty|]. split; [|split; [|apply trim_split]].
  - intros Hb. unfold updateSessionTitle.
    apply trim_empty in Hb. by rewrite Hb.
  - intros Hb. unfold updateSessionTitle.
    destruct (JS.truthy (JS.trim newTitle)) eqn:Et; simpl.
    + split; [apply length_map|]. intros i s Hi.
      rewrite lookup_List_map, Hi. simpl. eexists. split; [done|].
      case_bool_decide; split; done.
    + apply truthy_false, trim_empty in Et. congruence.
Qed.

Lemma C8_rename_witness :
  updateSessionTitle "100" "    " [Scenario.S2; Scenario.S1] = [Scenario.S2; Scenario.S1] ∧
  ∃ s', updateSessionTitle "100" "  Trip to Rome " [Scenario.S2; Scenario.S1] !! 1 = Some s' ∧
        title s' = "Trip to Rome".
Proof.
  split.
  - apply (C8_rename "100" "    " [Scenario.S2; Scenario.S1]). reflexivity.
  - destruct (C8_rename "100" "  Trip to Rome " [Scenario.S2; Scenario.S1])
      as (_ & _ & Hset & _).
    destruct Hset as [_ Hset]; [reflexivity|].
    destruct (Hset 1 Scenario.S1 eq_refl) as (s' & Hs' & _ & Hsame).
    exists s'. split; [exact Hs'|]. by destruct Hsame as [-> _].
Defined.

(** C9. [updateMessages] leaves every session whose id differs from the
    target as it is, and leaves the whole collection as it is when no
    session carries the target id. *)
Theorem C9_update_frame
    (sessionId : string) (updater : React.SetStateAction (list DisplayMessage))
    (prev : list StoredChatSession) :
  length (updateSessionMessages sessionId updater prev) = length prev ∧
  (∀ i s, prev !! i = Some s → id s ≠ sessionId →
          updateSessionMessages sessionId updater prev !! i = Some s) ∧
  (Forall (λ s, id s ≠ sessionId) prev →
   updateSessionMessages sessionId updater prev = prev).
Proof.
  unfold updateSessionMessages. split; [apply length_map|]. split.
  - intros i s Hi Hne. rewrite lookup_List_map, Hi. simpl.
    unfold updateOne. by rewrite bool_decide_eq_false_2.
  - induction 1 as [|s l Hs _ IH]; simpl; [done|].
    rewrite IH. unfold updateOne at 1. by rewrite bool_decide_eq_false_2.
Qed.

Lemma C9_update_frame_witness :
  updateSessionMessages "100" (React.byFunction (MainApp.append Scenario.hello))
    [Scenario.S2; Scenario.S1] !! 0 = Some Scenario.S2 ∧
  updateSessionMessages "300" (React.byFunction (MainApp.append Scenario.hello))
    [Scenario.S2; Scenario.S1] = [Scenario.S2; Scenario.S1].
Proof.
  split.
  - apply (C9_update_frame "100" _ [Scenario.S2; Scenario.S1]); [reflexivity | discriminate].
  - apply (C9_update_frame "300" _ [Scenario.S2; Scenario.S1]).
    repeat constructor; discriminate.
Defined.

End SessionUpdates.

(** ** Message updates of the chat branch *)
Section ChatBranch.
Import Types MainApp Spec.

Lemma replaceLast_last (r old : DisplayMessage) (pre : list DisplayMessage) :
  replaceLast r (pre ++ [old]) = pre ++ [r].
Proof.
  unfold replaceLast. rewrite length_app. simpl.
  replace (length pre + 1 - 1) with (length pre) by lia.
  rewrite insert_app_r_alt by lia. by rewrite Nat.sub_diag.
Qed.

Lemma replaceTail_last (m old : DisplayMessage) (pre : list DisplayMessage) :
  replaceTail m (pre ++ [old]) = pre ++ [m].
Proof.
  unfold replaceTail, JS.slice0m1. rewrite length_app. simpl.
  replace (length pre + 1 - 1) with (length pre) by lia.
  by rewrite take_app_length.
Qed.

Lemma applyAll_app us vs h : applyAll (us ++ vs) h = applyAll vs (applyAll us h).
Proof. apply fold_left_app. Qed.

Lemma runLoop_snoc l chunks chunk :
  runLoop l (chunks ++ [chunk]) = onChunk (runLoop l chunks) chunk.
Proof. unfold runLoop. by rewrite fold_left_app. Qed.

(** The loop never changes the key or the role of the response. *)
Lemma runLoop_timestamp l chunks :
  timestamp (currentResponse (runLoop l chunks)) = timestamp (currentResponse l).
Proof.
  revert l; induction chunks as [|c chunks IH]; intros l; [done|].
  change (runLoop l (c :: chunks)) with (runLoop (onChunk l c) chunks).
  by rewrite IH.
Qed.

(** The response shows the text the loop holds. *)
Lemma runLoop_shows l chunks :
  displayParts (currentResponse l) = [textDisplayPart (text l)] →
  displayParts (currentResponse (runLoop l chunks))
  = [textDisplayPart (text (runLoop l chunks))].
Proof.
  revert l; induction chunks as [|c chunks IH]; intros l Hl; [done|].
  change (runLoop l (c :: chunks)) with (runLoop (onChunk l c) chunks).
  by apply IH.
Qed.

(** The updates of the loop, applied to a history that ends with the
    response, leave the history that ends with the latest response. *)
Lemma stream_applied l chunks pre :
  applyAll (streamUpdaters l chunks) (pre ++ [currentResponse l])
  = pre ++ [currentResponse (runLoop l chunks)].
Proof.
  revert l; induction chunks as [|c chunks IH]; intros l; [done|].
  cbn [streamUpdaters]. unfold applyAll. cbn [fold_left].
  rewrite replaceLast_last. apply IH.
Qed.

(** The history of the session after the chat branch has consumed the
    chunks of a stream that completes. *)
Lemma chat_completes parts dps t0 t1 chunks prev :
  applyAll (chatUpdaters parts dps t0 t1 chunks completes) prev
  = (prev ++ [plainMessage user parts dps t0])
    ++ [currentResponse (runLoop (loopStart t1) chunks)].
Proof.
  unfold chatUpdaters. rewrite app_nil_r.
  unfold applyAll. cbn [fold_left]. unfold append.
  apply (stream_applied (loopStart t1)).
Qed.


Lemma withKey_unique ts pre r post :
  Forall (λ m, timestamp m ≠ ts) pre →
  Forall (λ m, timestamp m ≠ ts) post →
  timestamp r = ts →
  withKey ts (pre ++ r :: post) = [r].
Proof.
  intros Hpre Hpost Hr. unfold withKey. rewrite List.filter_app. simpl.
  rewrite (bool_decide_eq_true_2 _ Hr).
  rewrite !filter_none; [done| |].
  - eapply Forall_impl; [exact Hpost|]. intros m Hm. by apply bool_decide_eq_false.
  - eapply Forall_impl; [exact Hpre|]. intros m Hm. by apply bool_decide_eq_false.
Qed.

(** Messages of the target session after a series of updates sent through
    [setActiveChatHistory]. *)
Lemma sendAll_messages sid us sessions i s :
  JS.truthy sid = true →
  sessions !! i = Some s →
  id s = sid →
  ∃ s', sendAll (Some sid) us sessions !! i = Some s' ∧
        id s' = sid ∧ messages s' = applyAll us (messages s).
Proof.
  intros Hsid. revert sessions s.
  induction us as [|u us IH]; intros sessions s Hi Hid.
  - by exists s.
  - unfold sendAll, applyAll. cbn [fold_left].
    unfold UseChatHistory.setActiveChatHistory at 2. cbn [JS.truthy_opt default].
    rewrite Hsid.
    destruct (IH (UseChatHistory.updateSessionMessages sid (React.byFunction u) sessions)
                (UseChatHistory.updateOne sid (React.byFunction u) s))
      as (s' & Hs' & Hid' & Hm).
    + unfold UseChatHistory.updateSessionMessages. by rewrite lookup_List_map, Hi.
    + unfold UseChatHistory.updateOne. by rewrite bool_decide_eq_true_2.
    + exists s'. split; [exact Hs'|]. split; [done|]. rewrite Hm.
      unfold UseChatHistory.updateOne. by rewrite bool_decide_eq_true_2.
Qed.

(** A rewrite by key touches the one message that carries the key. *)
Lemma keyed_map_unique (ts : Z) (f : DisplayMessage → DisplayMessage) pre old post :
  Forall (λ m, timestamp m ≠ ts) pre →
  Forall (λ m, timestamp m ≠ ts) post →
  timestamp old = ts →
  List.map (λ msg, if bool_decide (timestamp msg = ts) then f msg else msg)
    (pre ++ old :: post)
  = pre ++ f old :: post.
Proof.
  intros Hpre Hpost Hold. rewrite List.map_app. simpl.
  rewrite (bool_decide_eq_true_2 _ Hold). f_equal; [|f_equal].
  - clear -Hpre. induction Hpre as [|m l Hm _ IH]; simpl; [done|].
    by rewrite bool_decide_eq_false_2, IH.
  - clear -Hpost. induction Hpost as [|m l Hm _ IH]; simpl; [done|].
    by rewrite bool_decide_eq_false_2, IH.
Qed.


(** Polling updates keep the loading message last and keep its key. *)
Lemma progress_applied ts statuses pre m :
  Forall (λ m, timestamp m ≠ ts) pre →
  timestamp m = ts →
  ∃ m', applyAll (List.map (onProgress ts) statuses) (pre ++ [m]) = pre ++ [m'] ∧
        timestamp m' = ts.
Proof.
  intros Hpre. revert m. induction statuses as [|status statuses IH]; intros m Hm.
  - by exists m.
  - unfold applyAll. cbn [List.map fold_left]. unfold onProgress at 2.
    rewrite (keyed_map_unique ts (withProgress status) pre m []) by done.
    by apply IH.
Qed.

(** The history of the session after the video branch, when the key of the
    loading message is carried by no earlier message. *)
Lemma video_final parts dps t0 t1 statuses final prev :
  Forall (λ m, timestamp m ≠ (t1 + 1)%Z) prev →
  t0 ≠ (t1 + 1)%Z →
  applyAll (videoUpdaters parts dps t0 t1 statuses final) prev
  = (prev ++ [plainMessage user parts dps t0]) ++ [final].
Proof.
  intros Hprev Hu. unfold videoUpdaters.
  change (append ?u :: append ?p :: ?s ++ ?e) with ((append u :: append p :: s) ++ e).
  rewrite applyAll_app. unfold applyAll at 2. cbn [fold_left]. unfold append.
  assert (Hpre : Forall (λ m, timestamp m ≠ (t1 + 1)%Z)
                   (prev ++ [plainMessage user parts dps t0])).
  { apply Forall_app. split; [done|]. by constructor. }
  destruct (progress_applied (t1 + 1)%Z statuses
              (prev ++ [plainMessage user parts dps t0]) (videoLoading parts dps t1))
    as (m' & Hm' & Hkey); [done | done |].
  cbn [timestamp videoLoading]. unfold applyAll in *.
  rewrite Hm'. cbn [fold_left]. unfold settle.
  by rewrite (keyed_map_unique (t1 + 1)%Z (λ _, final) _ m' []).
Qed.

End ChatBranch.

(** ** Streaming, polling and error messages *)
Section Progress.
Import Types MainApp Spec.

(** A chat generation that is alone in its session, and whose placeholder
    key [t1 + 1] is carried by no other message: every streaming update
    rewrites the placeholder where it stands and keeps its key; after any
    chunks the session holds exactly one message with that key, showing the
    text of the latest chunk that has text. *)
Lemma lone_generation_in_place
    (prev : list DisplayMessage) (parts : list GenAI.Part)
    (dps : list DisplayMessagePart) (t0 t1 : Z) :
  Forall (λ m, timestamp m ≠ (t1 + 1)%Z) prev →
  t0 ≠ (t1 + 1)%Z →
  let ts := (t1 + 1)%Z in
  let history chunks := applyAll (chatUpdaters parts dps t0 t1 chunks completes) prev in
  let loop chunks := runLoop (loopStart t1) chunks in
  (∀ received chunk,
     rewrittenAt ts (currentResponse (loop (received ++ [chunk])))
       (history received) (history (received ++ [chunk]))) ∧
  (∀ chunks,
     withKey ts (history chunks) = [currentResponse (loop chunks)] ∧
     displayParts (currentResponse (loop chunks)) = [textDisplayPart (text (loop chunks))]) ∧
  (∀ received chunk t,
     chunkText chunk = Some t → t ≠ "" → text (loop (received ++ [chunk])) = t) ∧
  (∀ chunks sid sessions i s,
     sid ≠ "" → sessions !! i = Some s → id s = sid → messages s = prev →
     ∃ s', sendAll (Some sid) (chatUpdaters parts dps t0 t1 chunks completes) sessions !! i
           = Some s' ∧
           withKey ts (messages s') = [currentResponse (loop chunks)]).
Proof.
  intros Hprev Hu ts history loop.
  assert (Hkey : ∀ chunks, timestamp (currentResponse (loop chunks)) = ts).
  { intros chunks. unfold loop. by rewrite runLoop_timestamp. }
  assert (Hpre : Forall (λ m, timestamp m ≠ ts) (prev ++ [plainMessage user parts dps t0])).
  { apply Forall_app. split; [done|]. by constructor. }
  assert (Hone : ∀ chunks, withKey ts (history chunks) = [currentResponse (loop chunks)]).
  { intros chunks. unfold history. rewrite chat_completes.
    by apply withKey_unique. }
  split; [|split; [|split]].
  - intros received chunk. unfold history. rewrite !chat_completes.
    exists (prev ++ [plainMessage user parts dps t0]),
           (currentResponse (loop received)), [].
    by repeat split.
  - intros chunks. split; [apply Hone|]. unfold loop. by apply runLoop_shows.
  - intros received chunk t Ht Hne. unfold loop.
    rewrite runLoop_snoc. destruct t as [|c t]; [done|].
    unfold onChunk. cbn [text]. by rewrite Ht.
  - intros chunks sid sessions i s Hsid Hi Hid Hm.
    destruct (sendAll_messages sid (chatUpdaters parts dps t0 t1 chunks completes)
                sessions i s) as (s' & Hs' & _ & Hm'); [by destruct sid | done | done |].
    exists s'. split; [exact Hs'|]. rewrite Hm', Hm. apply Hone.
Qed.

(** The scenario of the specification: the chunks [Hi], [Hi there],
    [Hi there!] of a lone generation leave one message with the placeholder
    key, showing [Hi there!]. *)
Lemma lone_generation_three_chunks :
  ∃ r, withKey 1001
         (applyAll (chatUpdaters [textPart "hello world"] [textDisplayPart "hello world"]
                      1000 1000 Scenario.threeChunks completes)
            [UseChatHistory.WELCOME_MESSAGE 0])
       = [r] ∧
       displayParts r = [textDisplayPart "Hi there!"].
Proof.
  destruct (lone_generation_in_place [UseChatHistory.WELCOME_MESSAGE 0]
              [textPart "hello world"] [textDisplayPart "hello world"] 1000 1000)
    as (_ & Hone & Htext & _).
  - repeat constructor. simpl. lia.
  - lia.
  - destruct (Hone Scenario.threeChunks) as [Hk Hshow].
    eexists. split; [exact Hk|]. rewrite Hshow.
    change Scenario.threeChunks
      with ([Scenario.textChunk "Hi"; Scenario.textChunk "Hi there"]
            ++ [Scenario.textChunk "Hi there!"]).
    by rewrite (Htext [Scenario.textChunk "Hi"; Scenario.textChunk "Hi there"]
                  (Scenario.textChunk "Hi there!") "Hi there!" eq_refl).
Qed.

(** C6. The streaming update of the chat branch does not look for the
    placeholder by its key: it overwrites the last message of the session.
    When a second send is handled before the first stream delivers a chunk,
    the first stream's update lands on the second send's placeholder: the
    first placeholder stays as it was, empty, the session holds two
    messages with the first key and none with the second.  The update by
    key of the video branch, applied to the same history, rewrites the
    first placeholder and leaves the second. *)
Theorem C6_second_send_overwritten
    (prev : list DisplayMessage)
    (parts1 : list GenAI.Part) (dps1 : list DisplayMessagePart) (t0 t1 : Z)
    (parts2 : list GenAI.Part) (dps2 : list DisplayMessagePart) (t0' t1' : Z)
    (chunk : Chunk) (chunks : list Chunk) :
  Forall (λ m, timestamp m ≠ (t1 + 1)%Z ∧ timestamp m ≠ (t1' + 1)%Z) prev →
  t0 ≠ (t1 + 1)%Z → t0 ≠ (t1' + 1)%Z →
  t0' ≠ (t1 + 1)%Z → t0' ≠ (t1' + 1)%Z →
  t1 ≠ t1' →
  let u1 := plainMessage user parts1 dps1 t0 in
  let u2 := plainMessage user parts2 dps2 t0' in
  let r := currentResponse (runLoop (loopStart t1) (chunk :: chunks)) in
  let sends rest :=
    applyAll (Submits.twoSends false parts1 dps1 t0 t1 parts2 dps2 t0' t1' rest) prev in
  sends [] = prev ++ [u1; placeholder t1; u2; placeholder t1'] ∧
  sends (chunk :: chunks) = prev ++ [u1; placeholder t1; u2; r] ∧
  withKey (t1 + 1) (sends (chunk :: chunks)) = [placeholder t1; r] ∧
  withKey (t1' + 1) (sends (chunk :: chunks)) = [] ∧
  settle (t1 + 1) r (sends []) = prev ++ [u1; r; u2; placeholder t1'].
Proof.
  intros Hprev H01 H01' H0'1 H0'1' Hne u1 u2 r sends.
  assert (Hr : timestamp r = (t1 + 1)%Z).
  { unfold r. by rewrite runLoop_timestamp. }
  assert (Hprev1 : Forall (λ m, timestamp m ≠ (t1 + 1)%Z) prev).
  { eapply Forall_impl; [exact Hprev|]. by intros m [? _]. }
  assert (Hprev2 : Forall (λ m, timestamp m ≠ (t1' + 1)%Z) prev).
  { eapply Forall_impl; [exact Hprev|]. by intros m [_ ?]. }
  assert (Hnone : ∀ ts l, Forall (λ m, timestamp m ≠ ts) l → withKey ts l = []).
  { intros ts l Hl. apply filter_none. eapply Forall_impl; [exact Hl|].
    intros m Hm. by apply bool_decide_eq_false. }
  assert (Hbefore : sends [] = prev ++ [u1; placeholder t1; u2; placeholder t1']).
  { unfold sends, Submits.twoSends, Submits.chatHead, applyAll. cbn [app fold_left].
    unfold append. by rewrite <- !app_assoc. }
  assert (Hafter : sends (chunk :: chunks) = prev ++ [u1; placeholder t1; u2; r]).
  { unfold sends, Submits.twoSends, Submits.chatHead, applyAll.
    cbn [app fold_left streamUpdaters]. unfold append.
    rewrite replaceLast_last.
    pose proof (stream_applied (onChunk (loopStart t1) chunk) chunks
                  (((prev ++ [u1]) ++ [placeholder t1]) ++ [u2])) as Hs.
    unfold applyAll in Hs. fold u1 u2. rewrite Hs.
    by rewrite <- !app_assoc. }
  split; [exact Hbefore|]. split; [exact Hafter|]. split; [|split].
  - rewrite Hafter. unfold withKey. rewrite List.filter_app.
    fold (withKey (t1 + 1) prev). rewrite (Hnone _ _ Hprev1). cbn.
    rewrite Hr. repeat case_bool_decide; try done; lia.
  - rewrite Hafter. unfold withKey. rewrite List.filter_app.
    fold (withKey (t1' + 1) prev). rewrite (Hnone _ _ Hprev2). cbn.
    rewrite Hr. repeat case_bool_decide; try done; lia.
  - rewrite Hbefore. unfold settle.
    change (prev ++ [u1; placeholder t1; u2; placeholder t1'])
      with (prev ++ [u1] ++ placeholder t1 :: [u2; placeholder t1']).
    rewrite app_assoc.
    rewrite (keyed_map_unique (t1 + 1) (λ _, r)).
    + by rewrite <- app_assoc.
    + apply Forall_app. split; [done|]. by constructor.
    + repeat constructor; cbn; [done | lia].
    + reflexivity.
Qed.

(** Two sends in a session that holds the welcome message, with clock
    readings 1000 and 1005, then the chunk [Hi] of the first stream: two
    messages carry the key 1001, none the key 1006. *)
Lemma C6_second_send_overwritten_witness :
  let h := applyAll
             (Submits.twoSends false
                [textPart "one"] [textDisplayPart "one"] 1000 1000
                [textPart "two"] [textDisplayPart "two"] 1005 1005
                [Scenario.textChunk "Hi"])
             [UseChatHistory.WELCOME_MESSAGE 0] in
  List.map timestamp h = [0; 1000; 1001; 1005; 1001]%Z ∧
  length (withKey 1001 h) = 2 ∧
  withKey 1006 h = [].
Proof.
  intros h.
  destruct (C6_second_send_overwritten [UseChatHistory.WELCOME_MESSAGE 0]
              [textPart "one"] [textDisplayPart "one"] 1000 1000
              [textPart "two"] [textDisplayPart "two"] 1005 1005
              (Scenario.textChunk "Hi") [])
    as (_ & Hafter & Htwo & Hnone & _); try lia.
  - repeat constructor; cbn; lia.
  - fold h in Hafter, Htwo, Hnone. split; [|split].
    + by rewrite Hafter.
    + exact (f_equal length Htwo).
    + exact Hnone.
Defined.




End Progress.

(** * Further properties of the session store *)
Section StoreMore.
Import Types UseChatHistory Spec Calls.

Lemma sort_insert_Sorted (a : StoredChatSession) (l : list StoredChatSession) :
  newestFirstOrdered l → newestFirstOrdered (JS.sort_insert newestFirst a l).
Proof.
  unfold newestFirstOrdered. induction 1 as [|b l Hl IH Hhd]; simpl.
  - by repeat constructor.
  - unfold newestFirst at 1.
    destruct (Z.leb_spec (createdAt b - createdAt a) 0).
    + constructor; [by constructor|]. constructor. lia.
    + constructor; [done|].
      destruct l as [|c l]; simpl.
      * constructor. lia.
      * inversion Hhd; subst. destruct (newestFirst a c <=? 0)%Z; constructor; [lia | done].
Qed.

Lemma sort_Sorted (l : list StoredChatSession) :
  newestFirstOrdered (JS.sort newestFirst l).
Proof.
  induction l as [|a l IH]; simpl; [constructor|]. by apply sort_insert_Sorted.
Qed.

Lemma ordered_strongly (l : list StoredChatSession) :
  newestFirstOrdered l ↔ StronglySorted (λ a b, (createdAt b ≤ createdAt a)%Z) l.
Proof.
  split.
  - apply Sorted_StronglySorted. intros a b c Hab Hbc. simpl in *. lia.
  - apply StronglySorted_Sorted.
Qed.

Lemma ordered_filter (f : StoredChatSession → bool) (l : list StoredChatSession) :
  newestFirstOrdered l → newestFirstOrdered (List.filter f l).
Proof.
  rewrite !ordered_strongly. induction 1 as [|a l Hl IH Ha]; simpl; [constructor|].
  destruct (f a); [|done]. constructor; [done|].
  apply Forall_forall. intros x [Hx _]%elem_of_List_filter.
  by eapply Forall_forall in Ha.
Qed.

Lemma ordered_map (f : StoredChatSession → StoredChatSession) (l : list StoredChatSession) :
  (∀ s, createdAt (f s) = createdAt s) →
  newestFirstOrdered l → newestFirstOrdered (List.map f l).
Proof.
  intros Hf. unfold newestFirstOrdered. induction 1 as [|a l Hl IH Hhd]; simpl; [constructor|].
  constructor; [done|]. destruct Hhd as [|b l Hab]; simpl; constructor. by rewrite !Hf.
Qed.

Lemma ordered_head_newest (l : list StoredChatSession) :
  newestFirstOrdered l → newest l = l !! 0.
Proof. intros Hl. by rewrite <- sort_newest, sort_ordered. Qed.

Lemma updateOne_keepsKeys sid updater : keepsKeys (updateOne sid updater).
Proof. intros s. unfold updateOne. by case_bool_decide. Qed.

Lemma setActiveChatHistory_map captured updater l :
  ∃ f, keepsKeys f ∧ setActiveChatHistory captured updater l = List.map f l.
Proof.
  unfold setActiveChatHistory. destruct (JS.truthy_opt captured).
  - eexists. split; [apply updateOne_keepsKeys | done].
  - exists (λ s, s). split; [done | by rewrite List.map_id].
Qed.

Lemma updateSessionTitle_map sid newTitle l :
  ∃ f, keepsKeys f ∧ updateSessionTitle sid newTitle l = List.map f l.
Proof.
  unfold updateSessionTitle. destruct (JS.truthy (JS.trim newTitle)); simpl.
  - eexists. split; [|done]. intros s. by case_bool_decide.
  - exists (λ s, s). split; [done | by rewrite List.map_id].
Qed.

Lemma elem_of_List_map {A B} (f : A → B) (l : list A) (x : A) :
  x ∈ l → f x ∈ List.map f l.
Proof. rewrite !list_elem_of_In. apply in_map. Qed.

Lemma activeExists_map f st :
  keepsKeys f → activeExists st → activeExists (setSessions (List.map f) st).
Proof.
  intros Hf (a & Ha & s & Hs & Hid). exists a. split; [done|].
  exists (f s). split; [by apply elem_of_List_map|]. by rewrite (proj1 (Hf s)).
Qed.

Lemma owned_map userId f l :
  keepsKeys f →
  Forall (λ s, Types.userId s = userId) l →
  Forall (λ s, Types.userId s = userId) (List.map f l).
Proof.
  intros Hf. induction 1 as [|s l Hs _ IH]; simpl; constructor; [|done].
  by rewrite (proj2 (proj2 (Hf s))).
Qed.

Lemma Forall_List_filter {A} (P : A → Prop) (f : A → bool) (l : list A) :
  Forall P l → Forall P (List.filter f l).
Proof.
  intros Hl. apply Forall_forall. intros x [Hx _]%elem_of_List_filter.
  by eapply Forall_forall in Hl.
Qed.

(** The three facts every call keeps: the active session exists, every
    session in memory belongs to the user, and (with the clock ahead) the
    collection is ordered newest first. *)
Lemma apply_activeExists userId loadTime st op :
  activeExists st → activeExists (apply userId loadTime st op).
Proof.
  destruct op as [isInitial tId tCreated|sid tId tCreated|sid|sid|captured updater|sid t];
    cbn [apply]; intros Hst.
  - apply startNewChat_activeExists.
  - by apply deleteChatSession_activeExists.
  - unfold loadChatSession.
    destruct (List.find _ (sessions st)) as [s|] eqn:E; [|done].
    apply find_some in E as [Hin Hid%bool_decide_eq_true].
    exists sid. split; [done|]. exists s. split; [by apply list_elem_of_In | done].
  - done.
  - destruct (setActiveChatHistory_map captured updater (sessions st)) as (f & Hf & Heq).
    unfold setSessions. rewrite Heq. by apply (activeExists_map f st).
  - destruct (updateSessionTitle_map sid t (sessions st)) as (f & Hf & Heq).
    unfold setSessions. rewrite Heq. by apply (activeExists_map f st).
Qed.

Lemma apply_owned userId loadTime st op :
  Forall (λ s, Types.userId s = userId) (sessions st) →
  Forall (λ s, Types.userId s = userId) (sessions (apply userId loadTime st op)).
Proof.
  destruct op as [isInitial tId tCreated|sid tId tCreated|sid|sid|captured updater|sid t];
    cbn [apply]; intros Hst.
  - simpl. destruct isInitial; by repeat constructor.
  - unfold deleteChatSession. case_bool_decide.
    + destruct (List.filter _ (sessions st)) eqn:E; cbn [sessions].
      * by repeat constructor.
      * rewrite <- E. by apply Forall_List_filter.
    + by apply Forall_List_filter.
  - unfold loadChatSession. by destruct (List.find _ (sessions st)).
  - done.
  - destruct (setActiveChatHistory_map captured updater (sessions st)) as (f & Hf & Heq).
    cbn [setSessions sessions]. rewrite Heq. by apply owned_map.
  - destruct (updateSessionTitle_map sid t (sessions st)) as (f & Hf & Heq).
    cbn [setSessions sessions]. rewrite Heq. by apply owned_map.
Qed.

Lemma apply_ordered userId loadTime st op :
  clockAhead st op →
  newestFirstOrdered (sessions st) →
  newestFirstOrdered (sessions (apply userId loadTime st op)).
Proof.
  destruct op as [isInitial tId tCreated|sid tId tCreated|sid|sid|captured updater|sid t];
    cbn [apply clockAhead]; intros Hclock Hst.
  - simpl. destruct isInitial; [by repeat constructor|].
    constructor; [done|]. destruct Hclock; constructor. done.
  - unfold deleteChatSession. case_bool_decide.
    + destruct (List.filter _ (sessions st)) eqn:E; cbn [sessions].
      * by repeat constructor.
      * rewrite <- E. by apply ordered_filter.
    + by apply ordered_filter.
  - unfold loadChatSession. by destruct (List.find _ (sessions st)).
  - done.
  - destruct (setActiveChatHistory_map captured updater (sessions st)) as (f & Hf & Heq).
    cbn [setSessions sessions]. rewrite Heq. apply ordered_map; [|done]. intros s. apply Hf.
  - destruct (updateSessionTitle_map sid t (sessions st)) as (f & Hf & Heq).
    cbn [setSessions sessions]. rewrite Heq. apply ordered_map; [|done]. intros s. apply Hf.
Qed.

Lemma load_owned userId loadTime stored tId tCreated st :
  Forall (λ s, Types.userId s = userId)
    (sessions (load userId loadTime stored tId tCreated st)).
Proof.
  unfold load. destruct (readAll stored) as [all|]; simpl; [|by repeat constructor].
  destruct (List.filter _ all) as [|x l] eqn:E; [by repeat constructor|].
  cbn [sessions]. rewrite sort_perm, <- E.
  apply Forall_forall. intros s [_ Hs]%elem_of_List_filter. by apply bool_decide_eq_true in Hs.
Qed.

Lemma load_ordered userId loadTime stored tId tCreated st :
  newestFirstOrdered (sessions (load userId loadTime stored tId tCreated st)).
Proof.
  unfold load. destruct (readAll stored) as [all|]; simpl; [|by repeat constructor].
  destruct (List.filter _ all) as [|x l] eqn:E; [by repeat constructor|].
  cbn [sessions]. apply sort_Sorted.
Qed.

Lemma runOps_facts userId loadTime ops st :
  activeExists st →
  Forall (λ s, Types.userId s = userId) (sessions st) →
  let st' := runOps userId loadTime ops st in
  activeExists st' ∧
  Forall (λ s, Types.userId s = userId) (sessions st') ∧
  (clockAheadAll userId loadTime st ops →
   newestFirstOrdered (sessions st) → newestFirstOrdered (sessions st')).
Proof.
  revert st. induction ops as [|op ops IH]; intros st Hact Hown; simpl; [done|].
  destruct (IH (apply userId loadTime st op)) as (H1 & H2 & H3).
  - by apply apply_activeExists.
  - by apply apply_owned.
  - split; [done|]. split; [done|]. intros [Hc Hrest] Hord.
    apply H3; [done|]. by apply apply_ordered.
Qed.

(** X1. From a freshly loaded state, after any sequence of calls of the hook
    (new chat, delete, switch, toggle context, message updates, rename), the
    active id is set and a session with that id is in the collection. *)
Theorem X1_active_exists_all_calls
    (userId : string) (loadTime : Z) (stored : Stored) (tId tCreated : Z)
    (ops : list Op) :
  activeExists
    (runOps userId loadTime ops (load userId loadTime stored tId tCreated initialState)).
Proof.
  apply runOps_facts; [apply load_activeExists | apply load_owned].
Qed.

(** X2. Whatever the stored document holds, after load and any sequence of
    calls every session in memory belongs to the current user. *)
Theorem X2_memory_holds_own_sessions
    (userId : string) (loadTime : Z) (stored : Stored) (tId tCreated : Z)
    (ops : list Op) :
  Forall (λ s, Types.userId s = userId)
    (sessions
       (runOps userId loadTime ops (load userId loadTime stored tId tCreated initialState))).
Proof.
  apply runOps_facts; [apply load_activeExists | apply load_owned].
Qed.

(** X3. When no new chat takes a creation time behind that of a session in
    memory, the collection stays ordered newest first through any sequence
    of calls; and when the stored document can be read and the write
    succeeds, saving the collection and loading it again gives back the same
    collection, with its first session active. *)
Theorem X3_reload_gives_same_collection
    (userId : string) (loadTime : Z) (stored : Stored) (tId tCreated : Z)
    (ops : list Op) (disk : Stored) (all : list StoredChatSession) (tId' tCreated' : Z) :
  clockAheadAll userId loadTime
    (load userId loadTime stored tId tCreated initialState) ops →
  readAll disk = Some all →
  let st := runOps userId loadTime ops
              (load userId loadTime stored tId tCreated initialState) in
  let st' := load userId loadTime (save userId (sessions st) disk false) tId' tCreated'
               initialState in
  newestFirstOrdered (sessions st) ∧
  sessions st' = sessions st ∧
  activeSessionId st' = id <$> sessions st !! 0.
Proof.
  intros Hclock Hdisk st st'.
  destruct (runOps_facts userId loadTime ops
              (load userId loadTime stored tId tCreated initialState))
    as (Hact & Hown & Hord); [apply load_activeExists | apply load_owned |].
  fold st in Hact, Hown, Hord.
  assert (Ho : newestFirstOrdered (sessions st)) by (apply Hord; [done | apply load_ordered]).
  assert (Hne : sessions st ≠ []).
  { destruct Hact as (a & _ & s & Hs & _). intros E. rewrite E in Hs. by apply elem_of_nil in Hs. }
  split; [done|].
  assert (Hs' : sessions st' = sessions st).
  { unfold st'. rewrite (load_save _ _ _ all) by done. by apply sort_ordered. }
  split; [done|].
  unfold st', load, save. rewrite Hdisk. cbn [readAll].
  rewrite List.filter_app, filter_negb_filter. cbn [app].
  rewrite filter_all.
  - destruct (sessions st) as [|x l] eqn:E; [done|].
    cbn [activeSessionId]. by rewrite sort_ordered.
  - eapply Forall_impl; [exact Hown|]. intros s Hs. by apply bool_decide_eq_true.
Qed.

Lemma X3_reload_gives_same_collection_witness :
  let ops := [StartNewChat false 300 300; DeleteChatSession "100" 301 301;
              UpdateSessionTitle "200" " Trip "] in
  let st := runOps "A" 0 ops
              (load "A" 0 (Parsed [Scenario.S3; Scenario.S1; Scenario.S2]) 1 1 initialState) in
  let st' := load "A" 0 (save "A" (sessions st) (Parsed [Scenario.S3]) false) 400 400
               initialState in
  List.map createdAt (sessions st) = [300; 200]%Z ∧
  sessions st' = sessions st.
Proof.
  intros ops st st'.
  destruct (X3_reload_gives_same_collection "A" 0
              (Parsed [Scenario.S3; Scenario.S1; Scenario.S2]) 1 1 ops
              (Parsed [Scenario.S3]) [Scenario.S3] 400 400) as (_ & Hsame & _).
  - cbn. repeat split. repeat constructor; cbn; lia.
  - reflexivity.
  - split; [reflexivity | exact Hsame].
Defined.

End StoreMore.

(** * Loading, saving and deleting *)
Section StoreEdges.
Import Types UseChatHistory Spec Calls.

(** X4. Load puts in memory exactly the stored sessions of the user, ordered
    newest first, and makes the newest one active (the earliest stored one
    when several share the greatest creation time); when the stored document
    cannot be read or holds no session of the user, memory holds one seeded
    session of the user, active, whose id is the clock reading. *)
Theorem X4_load_result
    (userId : string) (loadTime : Z) (stored : Stored) (tId tCreated : Z) (st : State) :
  let st' := load userId loadTime stored tId tCreated st in
  let mine all := List.filter (λ s, bool_decide (Types.userId s = userId)) all in
  (∀ all, readAll stored = Some all → mine all ≠ [] →
     sessions st' ≡ₚ mine all ∧
     newestFirstOrdered (sessions st') ∧
     activeSessionId st' = id <$> newest (mine all) ∧
     activeSessionId st' = id <$> sessions st' !! 0) ∧
  ((readAll stored = None ∨ ∃ all, readAll stored = Some all ∧ mine all = []) →
     sessions st' = [newSession userId loadTime tId tCreated] ∧
     activeSessionId st' = Some (JS.toString tId)) ∧
  contextSessionIds st' = contextSessionIds st.
Proof.
  intros st' mine. subst st'. unfold load. split; [|split].
  - intros all Hall Hne. rewrite Hall. fold (mine all).
    destruct (mine all) as [|x l] eqn:E; [done|]. cbn [sessions activeSessionId].
    split; [apply sort_perm|]. split; [apply sort_Sorted|].
    by rewrite sort_newest.
  - intros [Hnone | (all & Hall & Hnil)].
    + by rewrite Hnone.
    + rewrite Hall. fold (mine all). by rewrite Hnil.
  - destruct (readAll stored) as [all|]; [|done].
    by destruct (List.filter _ all).
Qed.

Lemma X4_load_result_witness :
  let st := load "A" 0 (Parsed [Scenario.S1; Scenario.S3; Scenario.S2]) 1 1 initialState in
  newestFirstOrdered (sessions st) ∧ activeSessionId st = Some "200".
Proof.
  intros st.
  destruct (X4_load_result "A" 0 (Parsed [Scenario.S1; Scenario.S3; Scenario.S2]) 1 1
              initialState) as (Hsome & _).
  destruct (Hsome [Scenario.S1; Scenario.S3; Scenario.S2] eq_refl) as (_ & Hord & Hact & _).
  - discriminate.
  - split; [exact Hord | exact Hact].
Defined.

Lemma filter_filter {A} (f : A → bool) (l : list A) :
  List.filter f (List.filter f l) = List.filter f l.
Proof.
  apply filter_all, Forall_forall. by intros x [_ Hx]%elem_of_List_filter.
Qed.

(** X5. After a save into a readable document whose write succeeds, the
    stored sessions of the user are exactly the saved ones (what was stored
    for the user before is dropped, not merged), and saving the same
    collection again changes nothing; a save whose write throws leaves the
    document as it was, so the sessions stored before stay. *)
Theorem X5_save_replaces_own
    (userId : string) (l all : list StoredChatSession) (stored : Stored) :
  readAll stored = Some all →
  Forall (λ s, Types.userId s = userId) l →
  (∃ all', readAll (save userId l stored false) = Some all' ∧
           List.filter (λ s, bool_decide (Types.userId s = userId)) all' = l) ∧
  save userId l (save userId l stored false) false = save userId l stored false ∧
  save userId l stored true = stored.
Proof.
  intros Hall Hown.
  assert (Hmine : List.filter (λ s, bool_decide (Types.userId s = userId)) l = l).
  { apply filter_all. eapply Forall_impl; [exact Hown|].
    intros s Hs. by apply bool_decide_eq_true. }
  assert (Hother : List.filter (λ s, negb (bool_decide (Types.userId s = userId))) l = []).
  { apply filter_none. eapply Forall_impl; [exact Hown|].
    intros s Hs. simpl. by rewrite bool_decide_eq_true_2. }
  unfold save. rewrite Hall. cbn [readAll]. split; [|split].
  - eexists. split; [done|].
    by rewrite List.filter_app, filter_negb_filter, Hmine.
  - by rewrite List.filter_app, filter_filter, Hother, app_nil_r.
  - done.
Qed.

Lemma X5_save_replaces_own_witness :
  save "A" [Scenario.S2] (Parsed [Scenario.S1; Scenario.S3]) false
  = Parsed [Scenario.S3; Scenario.S2] ∧
  save "A" [Scenario.S2] (save "A" [Scenario.S2] (Parsed [Scenario.S1; Scenario.S3]) false)
    false
  = save "A" [Scenario.S2] (Parsed [Scenario.S1; Scenario.S3]) false ∧
  save "A" [Scenario.S2] (Parsed [Scenario.S1; Scenario.S3]) true
  = Parsed [Scenario.S1; Scenario.S3].
Proof.
  split; [reflexivity|].
  apply (X5_save_replaces_own "A" [Scenario.S2] [Scenario.S1; Scenario.S3]);
    [reflexivity | by repeat constructor].
Defined.

(** X6. A stored document that cannot be read is never repaired: save
    leaves it as it is, whatever the collection, so the load that follows
    starts again from one seeded session. *)
Theorem X6_unreadable_storage_stays
    (userId : string) (loadTime : Z) (l : list StoredChatSession) (stored : Stored)
    (tId tCreated : Z) (st : State) (setItemThrows : bool) :
  readAll stored = None →
  save userId l stored setItemThrows = stored ∧
  sessions (load userId loadTime (save userId l stored setItemThrows) tId tCreated st)
  = [newSession userId loadTime tId tCreated].
Proof.
  intros Hnone. assert (Hs : save userId l stored setItemThrows = stored).
  { unfold save. by rewrite Hnone. }
  split; [done|]. rewrite Hs. unfold load. by rewrite Hnone.
Qed.

Lemma X6_unreadable_storage_stays_witness :
  save "A" [Scenario.S2; Scenario.S1] Throws false = Throws ∧
  sessions (load "A" 0 (save "A" [Scenario.S2; Scenario.S1] Throws false) 7 7 initialState)
  = [newSession "A" 0 7 7].
Proof.
  apply (X6_unreadable_storage_stays "A" 0 [Scenario.S2; Scenario.S1] Throws 7 7).
  reflexivity.
Defined.

(** X7. Deleting a session removes its id from the context set and keeps
    every other context id; unless the seeded replacement takes the very
    same id from the clock, no session with the deleted id is left and the
    deleted id is not the active one afterwards; deleting a session that is
    not active keeps the active id. *)
Theorem X7_delete_effects
    (userId : string) (loadTime : Z) (sessionId : string) (tId tCreated : Z) (st : State) :
  let st' := deleteChatSession userId loadTime sessionId tId tCreated st in
  (∀ x, x ∈ contextSessionIds st' ↔ x ∈ contextSessionIds st ∧ x ≠ sessionId) ∧
  (JS.toString tId ≠ sessionId →
     Forall (λ s, id s ≠ sessionId) (sessions st') ∧
     (activeExists st → activeSessionId st' ≠ Some sessionId)) ∧
  (activeSessionId st ≠ Some sessionId →
     activeSessionId st' = activeSessionId st ∧
     sessions st' = List.filter (λ s, negb (bool_decide (id s = sessionId))) (sessions st)).
Proof.
  intros st'.
  assert (Hrest : Forall (λ s, id s ≠ sessionId)
            (List.filter (λ s, negb (bool_decide (id s = sessionId))) (sessions st))).
  { apply Forall_forall. intros s [_ Hs]%elem_of_List_filter.
    by apply negb_true_iff, bool_decide_eq_false in Hs. }
  split; [|split].
  - intros x. subst st'. unfold deleteChatSession.
    case_bool_decide; [destruct (List.filter _ (sessions st))|];
      cbn [contextSessionIds]; set_solver.
  - intros Hfresh.
    assert (Hgone : Forall (λ s, id s ≠ sessionId) (sessions st')).
    { subst st'. unfold deleteChatSession. case_bool_decide; [|done].
      destruct (List.filter _ (sessions st)) eqn:E; cbn [sessions].
      - constructor; [exact Hfresh | constructor].
      - exact Hrest. }
    split; [done|]. intros Hact.
    destruct (deleteChatSession_activeExists userId loadTime sessionId tId tCreated st Hact)
      as (a & Ha & s & Hs & Hid).
    fold st' in Ha, Hs. rewrite Ha. intros [= ->].
    eapply Forall_forall in Hgone; [|exact Hs]. done.
  - intros Hne. subst st'. unfold deleteChatSession.
    by rewrite bool_decide_eq_false_2.
Qed.

Lemma X7_delete_effects_witness :
  let st' := deleteChatSession "A" 0 "200" 300 300 Scenario.twoSessions in
  Forall (λ s, id s ≠ "200") (sessions st') ∧ activeSessionId st' ≠ Some "200".
Proof.
  intros st'.
  destruct (X7_delete_effects "A" 0 "200" 300 300 Scenario.twoSessions) as (_ & Hgone & _).
  destruct Hgone as [Hs Ha]; [by vm_compute|].
  split; [exact Hs|]. apply Ha.
  exists "200". split; [reflexivity|]. exists Scenario.S2. split; [left | reflexivity].
Defined.

(** X8. Toggling the same context id twice gives back the state it started
    from. *)
Theorem X8_toggle_twice (sessionId : string) (st : State) :
  toggleContextSession sessionId (toggleContextSession sessionId st) = st.
Proof.
  destruct st as [ss act ctx]. unfold toggleContextSession. cbn.
  f_equal. destruct (decide (sessionId ∈ ctx)) as [Hin|Hout].
  - rewrite (bool_decide_eq_true_2 _ Hin).
    rewrite bool_decide_eq_false_2 by set_solver.
    apply set_eq. intros x. destruct (decide (x = sessionId)); set_solver.
  - rewrite (bool_decide_eq_false_2 _ Hout).
    rewrite bool_decide_eq_true_2 by set_solver. set_solver.
Qed.

End StoreEdges.

(** * Titles and message lists *)
Section TitlesMore.
Import Types UseChatHistory Spec Calls.

Lemma length_string_app (a b : string) :
  String.length (a +:+ b) = String.length a + String.length b.
Proof. induction a as [|c a IH]; simpl; [done|]. by rewrite IH. Qed.

(** X9. A generated title never has more than 38 code units, whatever the
    messages. *)
Theorem X9_generated_title_bounded (msgs : list DisplayMessage) :
  String.length (generateTitle msgs) ≤ 38.
Proof.
  unfold generateTitle. set (firstText := JS.or_else _ _). unfold MAX_TITLE_LENGTH.
  destruct (Nat.ltb_spec 35 (String.length firstText)).
  - rewrite length_string_app, substring0_length.
    change (String.length "...") with 3. lia.
  - lia.
Qed.

(** X10. Updating messages never changes the id, creation time or owner of
    any session, and leaves the title alone when it is no longer the default
    one or when the new message list does not hold exactly one user
    message. *)
Theorem X10_update_keeps_identity
    (sessionId : string) (updater : React.SetStateAction (list DisplayMessage))
    (prev : list StoredChatSession) :
  let next := updateSessionMessages sessionId updater prev in
  List.map id next = List.map id prev ∧
  List.map createdAt next = List.map createdAt prev ∧
  List.map Types.userId next = List.map Types.userId prev ∧
  ∀ i s, prev !! i = Some s →
    (title s ≠ "New Chat" ∨
     length (List.filter isUser (React.resolve updater (messages s))) ≠ 1) →
    ∃ s', next !! i = Some s' ∧ title s' = title s.
Proof.
  intros next. subst next. unfold updateSessionMessages.
  pose proof (updateOne_keepsKeys sessionId updater) as Hk.
  rewrite !List.map_map. repeat split.
  - apply List.map_ext. intros s. apply Hk.
  - apply List.map_ext. intros s. apply Hk.
  - apply List.map_ext. intros s. apply Hk.
  - intros i s Hi Hcase. rewrite lookup_List_map, Hi. eexists. split; [done|].
    unfold updateOne. case_bool_decide; [|done]. cbn [title].
    destruct Hcase as [Ht | Hn].
    + by rewrite (bool_decide_eq_false_2 _ Ht), andb_false_r.
    + apply Nat.eqb_neq in Hn. by rewrite Hn.
Qed.

Lemma X10_update_keeps_identity_witness :
  ∃ s', updateSessionMessages "100" (React.byFunction (MainApp.append Scenario.question))
          [Scenario.T2; Scenario.T1] !! 1 = Some s' ∧
        title s' = "hello world".
Proof.
  destruct (X10_update_keeps_identity "100"
              (React.byFunction (MainApp.append Scenario.question))
              [Scenario.T2; Scenario.T1]) as (_ & _ & _ & Htitle).
  apply (Htitle 1 Scenario.T1 eq_refl). left. discriminate.
Defined.

Lemma find_map_id (f : StoredChatSession → StoredChatSession) (a : string)
    (l : list StoredChatSession) :
  (∀ s, id (f s) = id s) →
  List.find (λ s, bool_decide (id s = a)) (List.map f l)
  = f <$> List.find (λ s, bool_decide (id s = a)) l.
Proof.
  intros Hf. induction l as [|s l IH]; simpl; [done|].
  rewrite Hf. by case_bool_decide.
Qed.

(** X11. Reading the active history after writing it through
    [setActiveChatHistory] gives the updater applied to what was read
    before, when the active session is in the collection and its id is not
    the empty string; with the empty string as active id the write is
    dropped and the collection stays as it was. *)
Theorem X11_active_history_read_after_write
    (st : State) (a : string) (updater : React.SetStateAction (list DisplayMessage)) :
  activeSessionId st = Some a →
  let st' := setSessions (setActiveChatHistory (activeSessionId st) updater) st in
  (a ≠ "" → (∃ s, s ∈ sessions st ∧ id s = a) →
     activeChatHistory st' = React.resolve updater (activeChatHistory st)) ∧
  (a = "" → sessions st' = sessions st).
Proof.
  intros Ha st'. subst st'. rewrite Ha. split.
  - intros Hne (s & Hs & Hid).
    unfold activeChatHistory, setSessions, setActiveChatHistory.
    cbn [activeSessionId sessions JS.truthy_opt default]. rewrite Ha. cbn [mbind option_bind].
    replace (JS.truthy a) with true by (by destruct a).
    unfold updateSessionMessages.
    rewrite find_map_id by (intros x; apply updateOne_keepsKeys).
    destruct (List.find _ (sessions st)) as [s0|] eqn:E.
    + apply find_some in E as [_ Hid0%bool_decide_eq_true]. cbn.
      unfold updateOne. by rewrite (bool_decide_eq_true_2 _ Hid0).
    + exfalso. apply list_elem_of_In in Hs.
      apply (find_none _ _ E) in Hs. simpl in Hs.
      by apply bool_decide_eq_false in Hs.
  - intros ->. done.
Qed.

Lemma X11_active_history_read_after_write_witness :
  activeChatHistory
    (setSessions (setActiveChatHistory (Some "200")
                    (React.byFunction (MainApp.append Scenario.hello)))
       Scenario.twoSessions)
  = [WELCOME_MESSAGE 0; Scenario.hello].
Proof.
  destruct (X11_active_history_read_after_write Scenario.twoSessions "200"
              (React.byFunction (MainApp.append Scenario.hello)) eq_refl) as [Hrw _].
  apply Hrw; [discriminate|].
  exists Scenario.S2. split; [left | reflexivity].
Defined.

(** X12. The session assembler leaves the chat handle untouched when no
    session carries the target id; when one does, it assigns a handle whose
    tools are the zip function declaration, followed by the web search tool
    exactly when web search is enabled, or clears the handle when no API key
    is configured. *)
Theorem X12_assembler_edges
    (key : option string) (target : string) (all : list StoredChatSession)
    (ctx : gset string) (web : bool) :
  (Forall (λ s, id s ≠ target) all →
     recreateGeminiSession key target all ctx web = untouched) ∧
  (∀ a, firstWithId target all a →
     (JS.truthy_opt key = false →
        recreateGeminiSession key target all ctx web = assigned None) ∧
     (JS.truthy_opt key = true →
        ∃ h, recreateGeminiSession key target all ctx web = assigned (Some h) ∧
             GenAI.tools h =
               GenAI.functionDeclarations ["create_zip_file"] ::
               (if web then [GenAI.googleSearch] else []))).
Proof.
  split.
  - intros Hnone. unfold recreateGeminiSession, combinedHistory.
    replace (List.find _ all) with (@None StoredChatSession); [done|].
    symmetry. induction Hnone as [|s l Hs _ IH]; simpl; [done|].
    by rewrite bool_decide_eq_false_2.
  - intros a Ha. unfold recreateGeminiSession.
    rewrite (combinedHistory_upstream _ _ _ _ Ha).
    unfold GeminiService.createChatSession.
    split; intros ->; [done|]. by eexists.
Qed.

Lemma X12_assembler_edges_witness :
  recreateGeminiSession (Some "k") "300" [Scenario.T2; Scenario.T1] ∅ true = untouched ∧
  recreateGeminiSession None "200" [Scenario.T2; Scenario.T1] ∅ true = assigned None.
Proof.
  destruct (X12_assembler_edges (Some "k") "300" [Scenario.T2; Scenario.T1] ∅ true)
    as [Hmiss _].
  destruct (X12_assembler_edges None "200" [Scenario.T2; Scenario.T1] ∅ true)
    as [_ Hhit].
  split.
  - apply Hmiss. repeat constructor; discriminate.
  - apply (Hhit Scenario.T2); [|reflexivity].
    exists [], [Scenario.T1]. repeat split. constructor.
Defined.

Lemma trimEnd_idem (s : string) : JS.trimEnd (JS.trimEnd s) = JS.trimEnd s.
Proof.
  induction s as [|c s IH]; simpl; [done|].
  destruct (JS.is_space c && negb (JS.truthy (JS.trimEnd s))) eqn:E; [done|].
  simpl. by rewrite IH, E.
Qed.

Lemma trimStart_fixed (s : string) :
  match s with EmptyString => True | String c _ => JS.is_space c = false end →
  JS.trimStart s = s.
Proof. destruct s as [|c s]; simpl; [done|]. by intros ->. Qed.

(** Trimming twice is trimming once. *)
Lemma trim_idem (s : string) : JS.trim (JS.trim s) = JS.trim s.
Proof.
  destruct (trim_split s) as (ws1 & ws2 & _ & _ & _ & Hhd & _).
  unfold JS.trim at 1. rewrite (trimStart_fixed _ Hhd).
  unfold JS.trim. apply trimEnd_idem.
Qed.

(** X13. Saving an edited title from the sidebar has exactly the effect of
    [updateSessionTitle] on the raw input: the title is trimmed once, a
    blank one changes nothing, and no edit in progress changes nothing. *)
Theorem X13_title_save (editing : option (string * string))
    (prev : list StoredChatSession) :
  handleTitleSave editing prev =
  match editing with
  | Some (sessionId, title) => updateSessionTitle sessionId title prev
  | None => prev
  end.
Proof.
  destruct editing as [[sessionId title]|]; [|done]. unfold handleTitleSave.
  destruct (JS.truthy (JS.trim title)) eqn:E.
  - unfold updateSessionTitle. by rewrite trim_idem.
  - unfold updateSessionTitle. by rewrite E.
Qed.

End TitlesMore.

(** * Generations in flight *)
Section FlowsMore.
Import Types UseChatHistory MainApp Spec Flows.

Lemma sendAll_cons captured f us sessions :
  sendAll captured (f :: us) sessions
  = sendAll captured us (setActiveChatHistory captured (React.byFunction f) sessions).
Proof. done. Qed.

Lemma sendAll_app captured us vs sessions :
  sendAll captured (us ++ vs) sessions = sendAll captured vs (sendAll captured us sessions).
Proof. apply fold_left_app. Qed.

Lemma send_one sid f sessions i s :
  JS.truthy sid = true →
  sessions !! i = Some s →
  setActiveChatHistory (Some sid) (React.byFunction f) sessions !! i
  = Some (updateOne sid (React.byFunction f) s).
Proof.
  intros Hsid Hi. unfold setActiveChatHistory. cbn [JS.truthy_opt default].
  rewrite Hsid. unfold updateSessionMessages. by rewrite lookup_List_map, Hi.
Qed.

Lemma send_one_other captured f sessions i s :
  sessions !! i = Some s →
  captured ≠ Some (id s) →
  setActiveChatHistory captured (React.byFunction f) sessions !! i = Some s.
Proof.
  intros Hi Hne. unfold setActiveChatHistory.
  destruct (JS.truthy_opt captured) eqn:E; [|done].
  destruct captured as [sid|]; [|done]. cbn [default].
  unfold updateSessionMessages. rewrite lookup_List_map, Hi. cbn.
  unfold updateOne. rewrite bool_decide_eq_false_2; [done|]. congruence.
Qed.

(** X14. The updates of a generation in flight reach only the sessions that
    carry the id captured when the message was sent: every other session
    stays as it is, and when that id is missing, empty, or carried by no
    session (the session was deleted meanwhile) the collection is left
    unchanged. *)
Theorem X14_updates_reach_only_target
    (captured : option string)
    (us : list (list DisplayMessage → list DisplayMessage))
    (sessions : list StoredChatSession) :
  (∀ i s, sessions !! i = Some s → captured ≠ Some (id s) →
          sendAll captured us sessions !! i = Some s) ∧
  (JS.truthy_opt captured = false ∨
   Forall (λ s, captured ≠ Some (id s)) sessions →
   sendAll captured us sessions = sessions).
Proof.
  assert (Hframe : ∀ i s, sessions !! i = Some s → captured ≠ Some (id s) →
                          sendAll captured us sessions !! i = Some s).
  { revert sessions. induction us as [|f us IH]; intros sessions i s Hi Hne; [done|].
    rewrite sendAll_cons. apply IH; [|done]. by apply send_one_other. }
  split; [exact Hframe|].
  intros [Hfalsy | Hnone].
  - clear Hframe. revert sessions. induction us as [|f us IH]; intros sessions; [done|].
    rewrite sendAll_cons. unfold setActiveChatHistory. rewrite Hfalsy. apply IH.
  - apply list_eq. intros i.
    destruct (sessions !! i) as [s|] eqn:Hi.
    + apply Hframe; [done|]. eapply Forall_forall in Hnone; [done|].
      by eapply list_elem_of_lookup_2.
    + apply lookup_ge_None. apply lookup_ge_None in Hi.
      assert (Hlen : length (sendAll captured us sessions) = length sessions); [|lia].
      clear. revert sessions. induction us as [|f us IH]; intros sessions; [done|].
      rewrite sendAll_cons, IH. unfold setActiveChatHistory.
      destruct (JS.truthy_opt captured); [|done].
      unfold updateSessionMessages. apply length_map.
Qed.

Lemma X14_updates_reach_only_target_witness :
  sendAll (Some "300")
    (chatUpdaters [textPart "hello world"] [textDisplayPart "hello world"] 1000 1000
       Scenario.threeChunks completes)
    [Scenario.S2; Scenario.S1]
  = [Scenario.S2; Scenario.S1].
Proof.
  apply (X14_updates_reach_only_target (Some "300")). right.
  repeat constructor; discriminate.
Defined.

(** One update of the target session while the chat is being named: the
    title is, or becomes, the one derived from the only user message. *)
Lemma updateOne_named sid f s u :
  id s = sid →
  title s = generateTitle [u] ∨ title s = "New Chat" →
  List.filter isUser (f (messages s)) = [u] →
  let s1 := updateOne sid (React.byFunction f) s in
  id s1 = sid ∧ title s1 = generateTitle [u] ∧ messages s1 = f (messages s).
Proof.
  intros Hid Htitle Hu s1. subst s1. unfold updateOne.
  rewrite (bool_decide_eq_true_2 _ Hid). cbn [id title messages React.resolve].
  split; [done|]. split; [|done]. rewrite Hu. cbn [length Nat.eqb andb].
  case_bool_decide as Hnew.
  - rewrite (generateTitle_single _ u Hu). symmetry. apply generateTitle_single.
    simpl. destruct (isUser u) eqn:E; [done|].
    assert (Hin : u ∈ List.filter isUser (f (messages s))) by (rewrite Hu; left).
    apply elem_of_List_filter in Hin as [_ Hin]. congruence.
  - by destruct Htitle.
Qed.

Lemma onChunk_role l c : role (currentResponse (onChunk l c)) = role (currentResponse l).
Proof. done. Qed.

Lemma filter_isUser_snoc pre m u :
  List.filter isUser pre = [u] → isUser m = false →
  List.filter isUser (pre ++ [m]) = [u].
Proof. intros Hpre Hm. rewrite List.filter_app, Hpre. simpl. by rewrite Hm. Qed.

(** The stream part of the chat branch, sent to a session already named. *)
Lemma stream_named sid u i chunks :
  JS.truthy sid = true →
  ∀ l sessions s pre,
    sessions !! i = Some s → id s = sid → title s = generateTitle [u] →
    messages s = pre ++ [currentResponse l] →
    List.filter isUser pre = [u] →
    isUser (currentResponse l) = false →
    ∃ s', sendAll (Some sid) (streamUpdaters l chunks) sessions !! i = Some s' ∧
          id s' = sid ∧ title s' = generateTitle [u] ∧
          messages s' = pre ++ [currentResponse (runLoop l chunks)].
Proof.
  intros Hsid. induction chunks as [|c chunks IH]; intros l sessions s pre Hi Hid Ht Hm Hpre Hl.
  - by exists s.
  - cbn [streamUpdaters]. rewrite sendAll_cons.
    destruct (updateOne_named sid (replaceLast (currentResponse (onChunk l c))) s u)
      as (Hid1 & Ht1 & Hm1); [done | by left | |].
    { rewrite Hm, replaceLast_last. apply filter_isUser_snoc; [done|].
      unfold isUser in *. by rewrite onChunk_role. }
    apply (IH (onChunk l c) _
             (updateOne sid (React.byFunction (replaceLast (currentResponse (onChunk l c)))) s)
             pre); try done.
    + by apply send_one.
    + by rewrite Hm1, Hm, replaceLast_last.
Qed.

(** X15. The first message sent in a chat that still has the default title
    and no user message names the chat: once the chat branch has run, with
    any chunks and whether the stream completes or throws, the title is the
    one derived from that message, and the messages are those the branch
    leaves. *)
Theorem X15_first_message_names_chat
    (sid : string) (sessions : list StoredChatSession) (i : nat) (s : StoredChatSession)
    (parts : list GenAI.Part) (dps : list DisplayMessagePart) (t0 t1 : Z)
    (chunks : list Chunk) (e : StreamEnd) :
  sid ≠ "" →
  sessions !! i = Some s →
  id s = sid →
  title s = "New Chat" →
  List.filter isUser (messages s) = [] →
  ∃ s', sendAll (Some sid) (chatUpdaters parts dps t0 t1 chunks e) sessions !! i = Some s' ∧
        messages s' = applyAll (chatUpdaters parts dps t0 t1 chunks e) (messages s) ∧
        title s' =
          match firstText dps with
          | Some t => if 35 <? String.length t then JS.substring0 35 t +:+ "..." else t
          | None => "New Chat"
          end.
Proof.
  intros Hne Hi Hid Htitle Hnone.
  assert (Hsid : JS.truthy sid = true) by (by destruct sid).
  set (u := plainMessage user parts dps t0).
  assert (HG : generateTitle [u] =
               match firstText dps with
               | Some t => if 35 <? String.length t then JS.substring0 35 t +:+ "..." else t
               | None => "New Chat"
               end) by (by rewrite (generateTitle_single [u] u)).
  rewrite <- HG. clear HG.
  unfold chatUpdaters. fold u.
  change (append u :: append (placeholder t1) :: ?S ++ ?E)
    with ([append u; append (placeholder t1)] ++ S ++ E).
  rewrite !sendAll_app, !applyAll_app.
  (* the user message, then the placeholder *)
  destruct (updateOne_named sid (append u) s u) as (Hid1 & Ht1 & Hm1);
    [done | by right | by unfold append; rewrite List.filter_app, Hnone |].
  set (s1 := updateOne sid (React.byFunction (append u)) s) in *.
  destruct (updateOne_named sid (append (placeholder t1)) s1 u) as (Hid2 & Ht2 & Hm2);
    [done | by left | by rewrite Hm1; unfold append; apply filter_isUser_snoc;
                         [rewrite List.filter_app, Hnone|] |].
  set (s2 := updateOne sid (React.byFunction (append (placeholder t1))) s1) in *.
  assert (Hi2 : sendAll (Some sid) [append u; append (placeholder t1)] sessions !! i = Some s2).
  { rewrite !sendAll_cons. cbn [sendAll fold_left].
    apply send_one; [done|]. by apply send_one. }
  (* the chunks *)
  destruct (stream_named sid u i chunks Hsid (loopStart t1)
              (sendAll (Some sid) [append u; append (placeholder t1)] sessions) s2
              (messages s ++ [u]))
    as (s3 & Hi3 & Hid3 & Ht3 & Hm3); try done.
  { by rewrite Hm2, Hm1. }
  { by rewrite List.filter_app, Hnone. }
  assert (Hflow : applyAll (streamUpdaters (loopStart t1) chunks)
                    (applyAll [append u; append (placeholder t1)] (messages s))
                  = (messages s ++ [u]) ++ [currentResponse (runLoop (loopStart t1) chunks)]).
  { unfold applyAll at 2. cbn [fold_left]. unfold append.
    apply (stream_applied (loopStart t1)). }
  destruct e as [|error tErr].
  - exists s3. rewrite Hflow. by repeat split.
  - destruct (updateOne_named sid (replaceTail (chatErrorMessage error tErr)) s3 u)
      as (Hid4 & Ht4 & Hm4); [done | by left | |].
    { rewrite Hm3, replaceTail_last. apply filter_isUser_snoc; [|done].
      by rewrite List.filter_app, Hnone. }
    eexists. split; [|split; [|exact Ht4]].
    + cbn [sendAll fold_left]. apply send_one; [done | exact Hi3].
    + rewrite Hm4, Hm3, Hflow. done.
Qed.

Lemma X15_first_message_names_chat_witness :
  ∃ s', sendAll (Some "100")
          (chatUpdaters [textPart "hello world"] [textDisplayPart "hello world"] 1000 1000
             Scenario.threeChunks completes)
          [Scenario.S2; Scenario.S1] !! 1 = Some s' ∧
        title s' = "hello world".
Proof.
  destruct (X15_first_message_names_chat "100" [Scenario.S2; Scenario.S1] 1 Scenario.S1
              [textPart "hello world"] [textDisplayPart "hello world"] 1000 1000
              Scenario.threeChunks completes) as (s' & Hs' & _ & Ht);
    try reflexivity; [discriminate|].
  exists s'. split; [exact Hs' | exact Ht].
Defined.

Lemma runLoop_app l cs ds : runLoop l (cs ++ ds) = runLoop (runLoop l cs) ds.
Proof. apply fold_left_app. Qed.

Lemma runLoop_text_kept l cs :
  Forall (λ d, JS.truthy_opt (chunkText d) = false) cs →
  text (runLoop l cs) = text l.
Proof.
  intros Hcs. revert l. induction Hcs as [|d cs Hd _ IH]; intros l; [done|].
  change (runLoop l (d :: cs)) with (runLoop (onChunk l d) cs).
  rewrite IH. unfold onChunk. cbn [text]. by rewrite Hd.
Qed.

Lemma runLoop_call_kept l cs :
  Forall (λ d, functionCalls d = None ∨ functionCalls d = Some []) cs →
  finalFunctionCall (runLoop l cs) = finalFunctionCall l.
Proof.
  intros Hcs. revert l. induction Hcs as [|d cs Hd _ IH]; intros l; [done|].
  change (runLoop l (d :: cs)) with (runLoop (onChunk l d) cs).
  rewrite IH. unfold onChunk. cbn [finalFunctionCall]. by destruct Hd as [-> | ->].
Qed.

(** After at least one chunk the stored response mirrors the loop
    variables and carries the grounding of the last chunk. *)
Lemma runLoop_response l cs c :
  let l' := runLoop l (cs ++ [c]) in
  parts (currentResponse l') = [textPart (text l')] ∧
  displayParts (currentResponse l') = [textDisplayPart (text l')] ∧
  functionCall (currentResponse l') = finalFunctionCall l' ∧
  groundingSources (currentResponse l') = groundingChunks c.
Proof. intros l'. subst l'. by rewrite runLoop_snoc. Qed.

(** X16. What a completed stream leaves in the response: the text of the
    last chunk that has text (nothing is concatenated, and chunks without
    text keep what is shown); the first call of the last chunk that carries
    function calls; the grounding sources of the very last chunk only, so
    those of earlier chunks are lost when the last one has none; and the
    empty text when no chunk has text. *)
Theorem X16_stream_final_response
    (t1 : Z) (before : list Chunk) (c : Chunk) (after : list Chunk) :
  let final := currentResponse (runLoop (loopStart t1) (before ++ c :: after)) in
  (∀ t, chunkText c = Some t → t ≠ "" →
        Forall (λ d, JS.truthy_opt (chunkText d) = false) after →
        displayParts final = [textDisplayPart t] ∧ parts final = [textPart t]) ∧
  (∀ call rest, functionCalls c = Some (call :: rest) →
        Forall (λ d, functionCalls d = None ∨ functionCalls d = Some []) after →
        functionCall final = Some call) ∧
  (∀ lastChunk, last (c :: after) = Some lastChunk →
        groundingSources final = groundingChunks lastChunk) ∧
  (Forall (λ d, JS.truthy_opt (chunkText d) = false) (before ++ c :: after) →
        displayParts final = [textDisplayPart ""]).
Proof.
  intros final.
  assert (Hsplit : ∃ cs d, before ++ c :: after = cs ++ [d] ∧ last (c :: after) = Some d).
  { destruct (exists_last (l := c :: after)) as (cs' & d & Hcs); [done|].
    exists (before ++ cs'), d. rewrite Hcs, app_assoc. split; [done|]. apply last_snoc. }
  destruct Hsplit as (cs & d & Hcs & Hlast).
  destruct (runLoop_response (loopStart t1) cs d) as (Hp & Hd & Hf & Hg).
  rewrite <- Hcs in Hp, Hd, Hf, Hg. fold final in Hp, Hd, Hf, Hg.
  assert (Hrun : runLoop (loopStart t1) (before ++ c :: after)
                 = runLoop (onChunk (runLoop (loopStart t1) before) c) after).
  { by rewrite runLoop_app. }
  split; [|split; [|split]].
  - intros t Ht Hne Hafter. rewrite Hp, Hd, Hrun, runLoop_text_kept by done.
    unfold onChunk. cbn [text]. rewrite Ht. destruct t; [done|]. done.
  - intros call rest Hc Hafter. rewrite Hf, Hrun, runLoop_call_kept by done.
    unfold onChunk. cbn [finalFunctionCall]. by rewrite Hc.
  - intros lastChunk Hl. rewrite Hlast in Hl. injection Hl as <-. exact Hg.
  - intros Hall. rewrite Hd. by rewrite runLoop_text_kept.
Qed.

(** Cumulative chunks with a call in the middle and grounding only at the
    start: the last text and the call are kept, the grounding is lost. *)
Lemma X16_stream_final_response_witness :
  let grounded :=
    {| chunkText := Some "Hi"; functionCalls := None;
       groundingChunks := Some [{| GenAI.uri := "https://a.example"; GenAI.title := "A" |}] |} in
  let calling :=
    {| chunkText := Some "Hi there";
       functionCalls := Some [{| GenAI.name := "create_zip_file"; GenAI.args := "{}" |}];
       groundingChunks := None |} in
  let silent := {| chunkText := None; functionCalls := Some []; groundingChunks := None |} in
  let final := currentResponse (runLoop (loopStart 1000) [grounded; calling; silent]) in
  displayParts final = [textDisplayPart "Hi there"] ∧
  functionCall final = Some {| GenAI.name := "create_zip_file"; GenAI.args := "{}" |} ∧
  groundingSources final = None.
Proof.
  intros grounded calling silent final.
  destruct (X16_stream_final_response 1000 [grounded] calling [silent])
    as (Htext & Hcall & Hground & _).
  split; [|split].
  - apply (Htext "Hi there"); [reflexivity | discriminate | by repeat constructor].
  - apply (Hcall _ []); [reflexivity | repeat constructor; by right].
  - apply (Hground silent). reflexivity.
Defined.

Lemma withProgress_fields status m :
  timestamp (withProgress status m) = timestamp m ∧
  isGenerating (withProgress status m) = isGenerating m ∧
  displayParts (withProgress status m) = displayParts m ∧
  parts (withProgress status m) = parts m ∧
  role (withProgress status m) = role m.
Proof. done. Qed.

Lemma progressed_fields statuses m :
  timestamp (progressed statuses m) = timestamp m ∧
  isGenerating (progressed statuses m) = isGenerating m ∧
  displayParts (progressed statuses m) = displayParts m ∧
  parts (progressed statuses m) = parts m ∧
  role (progressed statuses m) = role m.
Proof.
  revert m. induction statuses as [|status statuses IH]; intros m; [done|].
  change (progressed (status :: statuses) m) with (progressed statuses (withProgress status m)).
  destruct (IH (withProgress status m)) as (-> & -> & -> & -> & ->). done.
Qed.

(** Polling updates applied to a history that ends with the loading
    message: only that message changes. *)
Lemma progress_applied_exact ts statuses pre m :
  Forall (λ m, timestamp m ≠ ts) pre →
  timestamp m = ts →
  applyAll (List.map (onProgress ts) statuses) (pre ++ [m]) = pre ++ [progressed statuses m].
Proof.
  intros Hpre. revert m. induction statuses as [|status statuses IH]; intros m Hm; [done|].
  unfold applyAll. cbn [List.map fold_left]. unfold onProgress at 2.
  rewrite (keyed_map_unique ts (withProgress status) pre m []) by done.
  by apply IH.
Qed.

(** X17. In a video generation whose loading key [t1 + 1] is carried by no
    earlier message: after every status report the session ends with the
    user message and the loading message, still generating and showing the
    latest status; once the video or the error has been put in place the
    loading message is gone, and a status report that arrives later changes
    nothing, since the replacement carries another key. *)
Theorem X17_video_progress
    (prev : list DisplayMessage) (parts : list GenAI.Part)
    (dps : list DisplayMessagePart) (t0 t1 : Z) :
  Forall (λ m, timestamp m ≠ (t1 + 1)%Z) prev →
  t0 ≠ (t1 + 1)%Z →
  (∀ received status,
     ∃ m, applyAll (videoProgressUpdaters parts dps t0 t1 (received ++ [status])) prev
          = prev ++ [plainMessage user parts dps t0; m] ∧
          generationProgress m = Some status ∧
          isGenerating m = Some true ∧
          timestamp m = (t1 + 1)%Z ∧
          displayParts m = dps) ∧
  (∀ statuses final late,
     timestamp final ≠ (t1 + 1)%Z →
     let h := applyAll (videoUpdaters parts dps t0 t1 statuses final) prev in
     h = prev ++ [plainMessage user parts dps t0; final] ∧
     onProgress (t1 + 1)%Z late h = h).
Proof.
  intros Hprev Hu.
  assert (Hpre : Forall (λ m, timestamp m ≠ (t1 + 1)%Z)
                   (prev ++ [plainMessage user parts dps t0])).
  { apply Forall_app. split; [done|]. by constructor. }
  split.
  - intros received status.
    exists (progressed (received ++ [status]) (videoLoading parts dps t1)).
    split.
    + unfold videoProgressUpdaters, applyAll. cbn [fold_left timestamp videoLoading].
      unfold append at 1 2.
      pose proof (progress_applied_exact (t1 + 1)%Z (received ++ [status])
                    (prev ++ [plainMessage user parts dps t0]) (videoLoading parts dps t1)
                    Hpre eq_refl) as H.
      unfold applyAll in H. rewrite H. by rewrite <- app_assoc.
    + destruct (progressed_fields (received ++ [status]) (videoLoading parts dps t1))
        as (Ht & Hg & Hd & _).
      split; [|by rewrite Ht, Hg, Hd].
      unfold progressed. by rewrite fold_left_app.
  - intros statuses final late Hfinal h.
    assert (Hh : h = prev ++ [plainMessage user parts dps t0; final]).
    { subst h. by rewrite video_final, <- app_assoc. }
    split; [done|]. rewrite Hh. unfold onProgress.
    rewrite <- (List.map_id (prev ++ _)) at 2. apply List.map_ext_in.
    intros m Hm. rewrite bool_decide_eq_false_2; [done|].
    apply in_app_or in Hm as [Hm | [<- | [<- | []]]]; [|done|done].
    eapply Forall_forall in Hprev; [done|]. by apply list_elem_of_In.
Qed.

Lemma X17_video_progress_witness :
  ∃ m, applyAll (videoProgressUpdaters [textPart "a cat"] [textDisplayPart "a cat"] 1000 1000
                   ["Sending video generation request..."; "Finalizing video..."])
         [UseChatHistory.WELCOME_MESSAGE 0]
       = [UseChatHistory.WELCOME_MESSAGE 0;
          plainMessage user [textPart "a cat"] [textDisplayPart "a cat"] 1000; m] ∧
       generationProgress m = Some "Finalizing video...".
Proof.
  destruct (X17_video_progress [UseChatHistory.WELCOME_MESSAGE 0]
              [textPart "a cat"] [textDisplayPart "a cat"] 1000 1000) as [Hprog _].
  - repeat constructor. simpl. lia.
  - lia.
  - destruct (Hprog ["Sending video generation request..."] "Finalizing video...")
      as (m & Hm & Hp & _).
    exists m. split; [exact Hm | exact Hp].
Defined.

End FlowsMore.

(** * API keys and the chat handle *)
Section KeysMore.
Import Types UseChatHistory Spec ApiKeys.

(** X18. With a storage that can be accessed, a key that was set is the key
    read back and a cleared key reads as absent, for the chat key and for
    the video key alike, and neither key is affected by setting or clearing
    the other; with a storage that throws, every read gives no key and
    setting or clearing changes nothing. *)
Theorem X18_api_keys (ls : LocalStorage) (k : string) :
  (throws ls = false →
     getCustomApiKey (setCustomApiKey k ls) = Some k ∧
     getCustomApiKey (clearCustomApiKey ls) = None ∧
     getVideoApiKey (setVideoApiKey k ls) = Some k ∧
     getVideoApiKey (clearVideoApiKey ls) = None ∧
     getVideoApiKey (setCustomApiKey k ls) = getVideoApiKey ls ∧
     getVideoApiKey (clearCustomApiKey ls) = getVideoApiKey ls ∧
     getCustomApiKey (setVideoApiKey k ls) = getCustomApiKey ls ∧
     getCustomApiKey (clearVideoApiKey ls) = getCustomApiKey ls) ∧
  (throws ls = true →
     getCustomApiKey ls = None ∧ getVideoApiKey ls = None ∧
     setCustomApiKey k ls = ls ∧ setVideoApiKey k ls = ls ∧
     clearCustomApiKey ls = ls ∧ clearVideoApiKey ls = ls).
Proof.
  assert (Hne : CUSTOM_API_KEY_STORAGE_KEY ≠ VIDEO_API_KEY_STORAGE_KEY) by discriminate.
  unfold getCustomApiKey, getVideoApiKey, setCustomApiKey, setVideoApiKey,
    clearCustomApiKey, clearVideoApiKey, getItemOrNull, setItemQuietly, removeItemQuietly.
  split; intros ->; cbn [throws items]; [|done].
  rewrite !lookup_insert_eq, !lookup_delete_eq.
  rewrite !lookup_insert_ne, !lookup_delete_ne by done. done.
Qed.

(** The three facts about the chat key used below. *)
Lemma custom_key_facts (ls : LocalStorage) :
  throws ls = false →
  (∀ k, getCustomApiKey (setCustomApiKey k ls) = Some k) ∧
  getCustomApiKey (clearCustomApiKey ls) = None ∧
  (∀ k, getVideoApiKey (setCustomApiKey k ls) = getVideoApiKey ls).
Proof.
  assert (Hne : CUSTOM_API_KEY_STORAGE_KEY ≠ VIDEO_API_KEY_STORAGE_KEY) by discriminate.
  unfold getCustomApiKey, getVideoApiKey, setCustomApiKey, clearCustomApiKey,
    getItemOrNull, setItemQuietly, removeItemQuietly.
  intros ->. cbn [throws items]. repeat split; intros.
  - apply lookup_insert_eq.
  - apply lookup_delete_eq.
  - by apply lookup_insert_ne.
Qed.

Lemma X18_api_keys_witness :
  let ls := {| throws := false; items := ∅ |} in
  getCustomApiKey (setVideoApiKey "v" (setCustomApiKey "c" ls)) = Some "c" ∧
  getVideoApiKey (clearCustomApiKey (setVideoApiKey "v" (setCustomApiKey "c" ls))) = Some "v".
Proof.
  intros ls.
  destruct (X18_api_keys (setCustomApiKey "c" ls) "v") as [Hset _].
  destruct (X18_api_keys ls "c") as [Hc _].
  destruct (X18_api_keys (setVideoApiKey "v" (setCustomApiKey "c" ls)) "x") as [Hclr _].
  destruct (Hset eq_refl) as (_ & _ & Hv & _ & _ & _ & Hkeep & _).
  destruct (Hc eq_refl) as (Hcc & _).
  destruct (Hclr eq_refl) as (_ & _ & _ & _ & _ & Hv' & _).
  split.
  - by rewrite Hkeep.
  - by rewrite Hv'.
Defined.

(** X19. With a storage that accepts reads and writes, saving a key that
    is not blank stores it trimmed, makes it the effective key whatever the
    environment default is, bumps the version and leaves the video key
    alone, so that the assembler builds a chat handle for an existing
    session; and after clearing, the effective key is the environment
    default, and without one the assembler clears the handle.  With a
    storage on which every access throws, saving stores nothing: the input
    field and the version change, and the effective key stays the
    environment default.  Saving a blank key changes nothing, whatever the
    storage. *)
Theorem X19_saved_key_is_used
    (key : string) (st : KeyState) (env : option string)
    (target : string) (all : list StoredChatSession) (ctx : gset string) (web : bool)
    (a : StoredChatSession) :
  firstWithId target all a →
  (throws (storage st) = false → blank key = false →
     let st' := handleSaveApiKey key st in
     getEffectiveApiKey env (storage st') = Some (JS.trim key) ∧
     customApiKeyInput st' = JS.trim key ∧
     apiKeyVersion st' = apiKeyVersion st + 1 ∧
     getVideoApiKey (storage st') = getVideoApiKey (storage st) ∧
     ∃ h, recreateGeminiSession (getEffectiveApiKey env (storage st')) target all ctx web
          = assigned (Some h) ∧
          GenAI.history h = upstreamHistory all ctx a) ∧
  (blank key = true → handleSaveApiKey key st = st) ∧
  (throws (storage st) = false →
   let st' := handleClearApiKey st in
   getEffectiveApiKey env (storage st') = (if JS.truthy_opt env then env else None) ∧
   (JS.truthy_opt env = false →
    recreateGeminiSession (getEffectiveApiKey env (storage st')) target all ctx web
    = assigned None)) ∧
  (throws (storage st) = true → blank key = false →
   let st' := handleSaveApiKey key st in
   storage st' = storage st ∧
   customApiKeyInput st' = JS.trim key ∧
   apiKeyVersion st' = apiKeyVersion st + 1 ∧
   getEffectiveApiKey env (storage st') = (if JS.truthy_opt env then env else None)).
Proof.
  intros Ha.
  assert (Ht : blank key = false → JS.truthy (JS.trim key) = true).
  { intros Hb. destruct (JS.truthy (JS.trim key)) eqn:E; [done|].
    apply truthy_false, trim_empty in E. congruence. }
  split; [|split; [|split]].
  - intros Hls Hb st'. subst st'. unfold handleSaveApiKey.
    destruct (custom_key_facts (storage st)) as (Hset & Hclear & Hother); [done|].
    rewrite (Ht Hb). cbn [storage customApiKeyInput apiKeyVersion].
    assert (He : getEffectiveApiKey env (setCustomApiKey (JS.trim key) (storage st))
                 = Some (JS.trim key)).
    { unfold getEffectiveApiKey. rewrite Hset. cbn [JS.truthy_opt]. by rewrite (Ht Hb). }
    rewrite He. repeat split; [apply Hother|].
    unfold recreateGeminiSession. rewrite (combinedHistory_upstream _ _ _ _ Ha).
    unfold GeminiService.createChatSession. cbn [JS.truthy_opt]. rewrite (Ht Hb).
    by eexists.
  - intros Hb. unfold handleSaveApiKey. apply trim_empty in Hb. by rewrite Hb.
  - intros Hls st'. subst st'. cbn [handleClearApiKey storage].
    destruct (custom_key_facts (storage st)) as (Hset & Hclear & Hother); [done|].
    assert (He : getEffectiveApiKey env (clearCustomApiKey (storage st))
                 = if JS.truthy_opt env then env else None).
    { unfold getEffectiveApiKey. by rewrite Hclear. }
    rewrite He. split; [done|]. intros Henv. rewrite Henv.
    unfold recreateGeminiSession. by rewrite (combinedHistory_upstream _ _ _ _ Ha).
  - intros Hls Hb st'. subst st'. unfold handleSaveApiKey. rewrite (Ht Hb).
    cbn [storage customApiKeyInput apiKeyVersion].
    unfold setCustomApiKey, setItemQuietly. rewrite Hls.
    repeat split. unfold getEffectiveApiKey, getCustomApiKey, getItemOrNull.
    by rewrite Hls.
Qed.

Lemma X19_saved_key_is_used_witness :
  let st := {| storage := {| throws := false; items := ∅ |};
               customApiKeyInput := ""; videoApiKeyInput := ""; apiKeyVersion := 0 |} in
  let denied := {| storage := {| throws := true; items := ∅ |};
                   customApiKeyInput := ""; videoApiKeyInput := ""; apiKeyVersion := 0 |} in
  getEffectiveApiKey (Some "env-key") (storage (handleSaveApiKey "  my-key " st))
  = Some "my-key" ∧
  handleSaveApiKey "   " st = st ∧
  getEffectiveApiKey (Some "env-key") (storage (handleSaveApiKey "  my-key " denied))
  = Some "env-key".
Proof.
  intros st denied.
  destruct (X19_saved_key_is_used "  my-key " st (Some "env-key") "200"
              [Scenario.T2; Scenario.T1] ∅ false Scenario.T2) as (Hsave & _).
  { exists [], [Scenario.T1]. repeat split. constructor. }
  destruct (X19_saved_key_is_used "   " st None "200"
              [Scenario.T2; Scenario.T1] ∅ false Scenario.T2) as (_ & Hblank & _).
  { exists [], [Scenario.T1]. repeat split. constructor. }
  destruct (X19_saved_key_is_used "  my-key " denied (Some "env-key") "200"
              [Scenario.T2; Scenario.T1] ∅ false Scenario.T2) as (_ & _ & _ & Hdenied).
  { exists [], [Scenario.T1]. repeat split. constructor. }
  split; [|split].
  - apply Hsave; reflexivity.
  - apply Hblank. reflexivity.
  - apply Hdenied; reflexivity.
Defined.

End KeysMore.

(** * The video request and its polling *)
Section VideoMore.
Import VideoRequest.

(** X20. A video request that is sent never has an empty prompt and asks
    for one video; it asks for 1080p only when the caller did, gave no
    reference images and no video to extend; reference images force 720p
    and 16:9; a video to extend forces 720p and the full model; the fast
    model is used exactly when there are neither reference images nor a
    video to extend. *)
Theorem X20_video_request_constraints
    (key : option string) (params : VideoGenerationParams) (r : RequestPayload) :
  buildRequest key params = inr r →
  payloadPrompt r ≠ "" ∧
  (prompt params ≠ "" → payloadPrompt r = prompt params) ∧
  numberOfVideos r = 1 ∧
  (payloadResolution r = res1080p →
     resolution params = res1080p ∧ hasReferenceImages params = false ∧ video params = None) ∧
  (hasReferenceImages params = true →
     payloadResolution r = res720p ∧ payloadAspectRatio r = ratio16x9 ∧
     payloadReferenceImages r = referenceImages params) ∧
  (video params ≠ None →
     payloadResolution r = res720p ∧ model r = "veo-3.1-generate-preview" ∧
     payloadVideo r = video params) ∧
  (model r = "veo-3.1-fast-generate-preview" ↔
     hasReferenceImages params = false ∧ video params = None).
Proof.
  unfold buildRequest.
  destruct (JS.truthy_opt key); [|done]. cbn [negb].
  destruct (JS.truthy (prompt params)) eqn:Ep,
           (hasReferenceImages params) eqn:Er,
           (video params) as [v|] eqn:Ev;
    cbn [negb andb]; try done; intros [= <-];
    cbn [payloadPrompt numberOfVideos payloadResolution payloadAspectRatio
         payloadReferenceImages payloadVideo model];
    (assert (Hp : prompt params ≠ "" → True) by done);
    repeat split; try done; try (by destruct (prompt params));
    try (intros [? ?]; done); try (by intros _; apply truthy_false).
Qed.

Lemma X20_video_request_constraints_witness :
  let params :=
    {| prompt := "a cat"; image := None; lastFrame := None;
       referenceImages := Some [{| GenAI.data := "AAAA"; GenAI.mimeType := "image/png" |}];
       video := None; resolution := res1080p; aspectRatio := ratio9x16 |} in
  ∃ r, buildRequest (Some "k") params = inr r ∧
       payloadResolution r = res720p ∧ payloadAspectRatio r = ratio16x9.
Proof.
  intros params. eexists. split; [reflexivity|].
  destruct (X20_video_request_constraints (Some "k") params _ eq_refl)
    as (_ & _ & _ & _ & Href & _).
  destruct (Href eq_refl) as (H1 & H2 & _). split; [exact H1 | exact H2].
Defined.

(** X21. Building the request fails exactly when no video key is
    configured, or when the prompt is empty although reference images or a
    video to extend are given; a request with an empty prompt and neither of
    them is sent with the default prompt. *)
Theorem X21_video_request_failure
    (key : option string) (params : VideoGenerationParams) :
  ((∃ message, buildRequest key params = inl message) ↔
   JS.truthy_opt key = false ∨
   (prompt params = "" ∧ (hasReferenceImages params = true ∨ video params ≠ None))) ∧
  (JS.truthy_opt key = true → prompt params = "" →
   hasReferenceImages params = false → video params = None →
   ∃ r, buildRequest key params = inr r ∧ payloadPrompt r = "An amazing video.").
Proof.
  unfold buildRequest. split.
  - destruct (JS.truthy_opt key); cbn [negb]; [|split; [by left | by eexists]].
    destruct (JS.truthy (prompt params)) eqn:Ep,
             (hasReferenceImages params) eqn:Er,
             (video params) as [v|] eqn:Ev; cbn [negb andb];
      (split; [intros [m Hm]; try done | intros [? | [Hp Hcase]]; try done]);
      try (apply truthy_false in Ep); try (by eexists);
      try (right; split; [done|]; auto; fail);
      try (rewrite Hp in Ep; done); try (destruct Hcase; done).
  - intros -> Hp Hr Hv. rewrite Hp, Hr, Hv. cbn. by eexists.
Qed.

Lemma X21_video_request_failure_witness :
  let params :=
    {| prompt := ""; image := None; lastFrame := None; referenceImages := None;
       video := None; resolution := res720p; aspectRatio := ratio16x9 |} in
  ∃ r, buildRequest (Some "k") params = inr r ∧ payloadPrompt r = "An amazing video.".
Proof.
  intros params.
  by apply (X21_video_request_failure (Some "k") params).
Defined.

Lemma onPoll_again acc op : onPoll (onPoll acc op) op = onPoll acc op.
Proof.
  destruct acc as [reports lastStatus]. unfold onPoll.
  destruct (latestStatus op) as [p|]; [|done].
  destruct (JS.truthy p) eqn:Ep; cbn [andb]; [|done].
  case_bool_decide as Hp; cbn [negb]; [by rewrite bool_decide_eq_true_2|].
  by rewrite bool_decide_eq_true_2.
Qed.

Lemma onPoll_grows acc op :
  ∃ more, fst (onPoll acc op) = fst acc ++ more ∧ length more ≤ 1 ∧
          Forall (λ r, ∃ body, r = "Processing: " +:+ body +:+ "...") more.
Proof.
  destruct acc as [reports lastStatus]. unfold onPoll.
  assert (Hsame : ∃ more, reports = reports ++ more ∧ length more ≤ 1 ∧
            Forall (λ r, ∃ body, r = "Processing: " +:+ body +:+ "...") more).
  { exists []. rewrite app_nil_r. split; [done|]. split; [simpl; lia | constructor]. }
  destruct (latestStatus op) as [p|]; [|exact Hsame].
  destruct (JS.truthy p && negb (bool_decide (p = lastStatus))); [|exact Hsame].
  eexists [_]. split; [done|]. split; [simpl; lia|].
  constructor; [by eexists | constructor].
Qed.

Lemma pollLoop_grows first polls acc :
  ∃ more, fst (pollLoop first polls acc) = fst acc ++ more ∧
          length more ≤ length polls ∧
          Forall (λ r, ∃ body, r = "Processing: " +:+ body +:+ "...") more.
Proof.
  revert first acc. induction polls as [|next rest IH]; intros first acc; simpl.
  - exists []. rewrite app_nil_r. split; [by destruct (done first)|].
    split; [simpl; lia | constructor].
  - destruct (done first).
    + exists []. rewrite app_nil_r. split; [done|]. split; [simpl; lia | constructor].
    + destruct (IH next (onPoll acc next)) as (more & Hm & Hlen & Hall).
      destruct (onPoll_grows acc next) as (one & Ho & Hlen1 & Hall1).
      exists (one ++ more). rewrite Hm, Ho, app_assoc. split; [done|].
      split; [rewrite length_app; lia | by apply Forall_app].
Qed.

Lemma pollLoop_done op polls acc :
  done op = true → pollLoop op polls acc = (fst acc, Some op).
Proof. intros Hd. destruct polls; simpl; by rewrite Hd. Qed.

Lemma pollLoop_repeat first before op after acc :
  pollLoop first (before ++ op :: op :: after) acc
  = pollLoop first (before ++ op :: after) acc.
Proof.
  revert first acc. induction before as [|b before IH]; intros first acc; simpl.
  - destruct (done first); [reflexivity|]. destruct (done op) eqn:Hd.
    + by rewrite pollLoop_done.
    + by rewrite onPoll_again.
  - destruct (done first); [reflexivity|]. apply IH.
Qed.

(** X22. The statuses [generateVideos] reports are the two fixed ones,
    then at most one [Processing: ...] line per poll, then
    [Finalizing video...] once an operation comes back done; a poll that
    returns the same operation as the poll before adds no report and does
    not change the outcome. *)
Theorem X22_polling_reports (first : Operation) (polls : list Operation) :
  (∃ processing,
     fst (reportAndPoll first polls)
     = ["Sending video generation request..."; "Request accepted. Your video is in the queue."]
       ++ processing
       ++ (match snd (reportAndPoll first polls) with
           | polling => []
           | _ => ["Finalizing video..."]
           end) ∧
     length processing ≤ length polls ∧
     Forall (λ r, ∃ body, r = "Processing: " +:+ body +:+ "...") processing) ∧
  (∀ before op after,
     polls = before ++ op :: op :: after →
     reportAndPoll first polls = reportAndPoll first (before ++ op :: after)).
Proof.
  split.
  - unfold reportAndPoll.
    set (start := (_, "queued")).
    destruct (pollLoop_grows first polls start) as (more & Hm & Hlen & Hall).
    exists more. destruct (pollLoop first polls start) as [reports [operation|]];
      cbn [fst snd] in *; rewrite Hm.
    + split; [|done]. rewrite <- !app_assoc.
      by destruct (videoUri operation) as [uri|]; [destruct (JS.truthy uri)|].
    + by rewrite app_nil_r.
  - intros before op after ->. unfold reportAndPoll. by rewrite pollLoop_repeat.
Qed.

Lemma X22_polling_reports_witness :
  let waiting status :=
    {| done := false; progress := Some [Some status]; videoUri := None |} in
  let ready :=
    {| done := true; progress := Some [Some "RENDERING_FRAMES"];
       videoUri := Some "https://v.example/1" |} in
  reportAndPoll (waiting "queued")
    [waiting "RENDERING_FRAMES"; waiting "RENDERING_FRAMES"; ready]
  = (["Sending video generation request...";
      "Request accepted. Your video is in the queue.";
      "Processing: rendering frames..."; "Finalizing video..."],
     finished "https://v.example/1").
Proof.
  intros waiting ready.
  destruct (X22_polling_reports (waiting "queued")
              [waiting "RENDERING_FRAMES"; waiting "RENDERING_FRAMES"; ready]) as [_ Hrep].
  rewrite (Hrep [] (waiting "RENDERING_FRAMES") [ready] eq_refl).
  reflexivity.
Defined.

End VideoMore.

(** * Accounts *)
Section AuthMore.
Import UseAuth.

Lemma find_app_miss {A} (f : A → bool) (l k : list A) :
  List.find f l = None → List.find f (l ++ k) = List.find f k.
Proof.
  induction l as [|x l IH]; simpl; [done|]. destruct (f x); [done | exact IH].
Qed.

Lemma existsb_find {A} (f : A → bool) (l : list A) :
  existsb f l = false ↔ List.find f l = None.
Proof.
  induction l as [|x l IH]; simpl; [done|]. destruct (f x); simpl; [split; done | exact IH].
Qed.

Lemma sameEmail_lower e e' u :
  JS.toLowerCase e' = JS.toLowerCase e → sameEmail e' u = sameEmail e u.
Proof. unfold sameEmail. by intros ->. Qed.

Lemma find_sameEmail_lower e e' users :
  JS.toLowerCase e' = JS.toLowerCase e →
  List.find (sameEmail e') users = List.find (sameEmail e) users.
Proof.
  intros He. induction users as [|u users IH]; simpl; [done|].
  by rewrite (sameEmail_lower e e' u He), IH.
Qed.

Lemma find_none_fresh e users :
  List.find (sameEmail e) users = None →
  JS.toLowerCase e ∉ List.map (λ u, JS.toLowerCase (email u)) users.
Proof.
  induction users as [|u users IH]; simpl; [intros _; apply not_elem_of_nil|].
  unfold sameEmail at 1. case_bool_decide as Hu; [done|]. intros Hn.
  apply not_elem_of_cons. split; [congruence | by apply IH].
Qed.

Lemma uniqueEmails_snoc users u :
  uniqueEmails users →
  List.find (sameEmail (email u)) users = None →
  uniqueEmails (users ++ [u]).
Proof.
  unfold uniqueEmails. intros Hu Hf. rewrite List.map_app. apply NoDup_app.
  split; [done|]. split; [|apply NoDup_singleton].
  intros x Hx [->|[]%elem_of_nil]%elem_of_cons. by apply find_none_fresh in Hf.
Qed.

(** X23. When the stored accounts can be read and none has the email,
    letter case aside: a sign-up whose write of the accounts throws returns
    false and changes nothing but the error; otherwise the sign-up appends
    the account and makes it the user in state, and it returns true exactly
    when the write of the current user succeeds too.  Logging in afterwards
    with the same password and the same email in any letter case succeeds
    as that account when its write of the current user succeeds, and any
    other password is refused. *)
Theorem X23_signup_then_login
    (wr : Writes) (username' email' password' : string) (now : Z) (w : World)
    (users : list User) (typed : string) :
  readUsers (usersItem w) = Some users →
  List.find (sameEmail email') users = None →
  JS.toLowerCase typed = JS.toLowerCase email' →
  let newUser :=
    {| id := JS.toString now; email := email'; password := Some password';
       username := username'; avatar := None; isGoogleUser := None |} in
  let r := signUp wr username' email' password' now w in
  (usersWriteThrows wr = true →
     r = (false, withError "An unexpected error occurred during sign-up." w)) ∧
  (usersWriteThrows wr = false →
     fst r = negb (currentWriteThrows wr) ∧
     accounts (snd r) = users ++ [newUser] ∧
     user (snd r) = Some newUser ∧
     (currentWriteThrows wr = false → currentUserItem (snd r) = Some newUser) ∧
     (currentWriteThrows wr = true → currentUserItem (snd r) = currentUserItem w) ∧
     (∀ out wr', currentWriteThrows wr' = false →
        login wr' typed password' (logout out (snd r))
        = (true, signedIn (usersItem (snd r)) newUser)) ∧
     (∀ out wr' other, other ≠ password' →
        fst (login wr' typed other (logout out (snd r))) = false)).
Proof.
  intros Hread Hfree Htyped newUser r. subst r. unfold signUp. rewrite Hread.
  rewrite (proj2 (existsb_find _ _) Hfree). cbn zeta. fold newUser.
  split; [by intros ->|]. intros ->.
  assert (Hfind : List.find (sameEmail typed) (users ++ [newUser]) = Some newUser).
  { rewrite find_app_miss by (by rewrite (find_sameEmail_lower email')).
    cbn [List.find]. unfold sameEmail. cbn [email]. by rewrite bool_decide_eq_true_2. }
  assert (Hin : ∀ out wr' item, currentWriteThrows wr' = false →
            usersItem item = UsersParsed (users ++ [newUser]) →
            login wr' typed password' (logout out item)
            = (true, signedIn (UsersParsed (users ++ [newUser])) newUser)).
  { intros out wr' item Hwr' Hitem. unfold login. cbn [logout usersItem].
    rewrite Hitem. cbn [readUsers]. rewrite Hfind. cbn.
    by rewrite bool_decide_eq_true_2, Hwr'. }
  assert (Hout : ∀ out wr' other item, other ≠ password' →
            usersItem item = UsersParsed (users ++ [newUser]) →
            fst (login wr' typed other (logout out item)) = false).
  { intros out wr' other item Hother Hitem. unfold login. cbn [logout usersItem].
    rewrite Hitem. cbn [readUsers]. rewrite Hfind. cbn.
    rewrite bool_decide_eq_false_2; [done|]. congruence. }
  destruct (currentWriteThrows wr);
    cbn [fst snd negb accounts signedIn signInCaught usersItem user currentUserItem
         readUsers default];
    (split; [done|]); (split; [done|]); (split; [done|]);
    (split; [done|]); (split; [done|]); split.
  - intros out wr' Hwr'. by apply Hin.
  - intros out wr' other Hother. by apply Hout.
  - intros out wr' Hwr'. by apply Hin.
  - intros out wr' other Hother. by apply Hout.
Qed.

Lemma X23_signup_then_login_witness :
  let ok := {| usersWriteThrows := false; currentWriteThrows := false |} in
  let full := {| usersWriteThrows := true; currentWriteThrows := true |} in
  let w := {| usersItem := NoUsersItem; currentUserItem := None; user := None;
              authError := None |} in
  let w1 := snd (signUp ok "Ada" "Ada@Example.org" "pw" 1700 w) in
  fst (login ok "ada@example.ORG" "pw" (logout ok w1)) = true ∧
  fst (login ok "ada@example.ORG" "PW" (logout ok w1)) = false ∧
  accounts (snd (signUp full "Ada" "Ada@Example.org" "pw" 1700 w)) = [].
Proof.
  intros ok full w w1.
  destruct (X23_signup_then_login ok "Ada" "Ada@Example.org" "pw" 1700 w []
              "ada@example.ORG") as (_ & Hok); try reflexivity.
  destruct (Hok eq_refl) as (_ & _ & _ & _ & _ & Hin & Hout).
  destruct (X23_signup_then_login full "Ada" "Ada@Example.org" "pw" 1700 w []
              "ada@example.ORG") as (Hfull & _); try reflexivity.
  split; [|split].
  - fold w1 in Hin. by rewrite (Hin ok ok eq_refl).
  - apply Hout. discriminate.
  - by rewrite (Hfull eq_refl).
Defined.

Lemma authStep_accounts w c :
  accounts (authStep w c) = accounts w ∨
  ∃ u, accounts (authStep w c) = accounts w ++ [u] ∧
       List.find (sameEmail (email u)) (accounts w) = None.
Proof.
  destruct c as [wr e p|wr n e p now|wr payload|wr]; cbn [authStep].
  - left. unfold login. destruct (readUsers (usersItem w)) as [users|]; [|done].
    destruct (List.find _ users) as [fu|]; [|done].
    destruct (negb (viaGoogle fu) && _); [|done].
    by destruct (currentWriteThrows wr).
  - unfold signUp, accounts. destruct (readUsers (usersItem w)) as [users|] eqn:E;
      [|left; cbn [snd withError usersItem]; by rewrite E].
    destruct (existsb _ users) eqn:Ex; cbn [snd withError usersItem]; [left; by rewrite E|].
    cbn zeta. destruct (usersWriteThrows wr); [left; cbn [snd withError usersItem]; by rewrite E|].
    right. eexists.
    destruct (currentWriteThrows wr);
      cbn [snd signedIn signInCaught usersItem readUsers default];
      (split; [done|]); by apply existsb_find.
  - unfold handleGoogleSignIn, accounts. destruct payload as [p|]; [|by left].
    destruct (readUsers (usersItem w)) as [users|] eqn:E;
      [|left; cbn [withError usersItem]; by rewrite E].
    destruct (List.find _ users) as [u|] eqn:Ef.
    + left. destruct (negb (viaGoogle u)); [|destruct (currentWriteThrows wr)];
        cbn [withError signedIn signInCaught usersItem]; by rewrite E.
    + cbn zeta. destruct (usersWriteThrows wr);
        [left; cbn [withError usersItem]; by rewrite E|].
      right. eexists.
      destruct (currentWriteThrows wr);
        cbn [signedIn signInCaught usersItem readUsers default]; (split; [done|]); done.
  - by left.
Qed.

(** X24. No sequence of logins, sign-ups, Google sign-ins and logouts ever
    stores two accounts with the same email, letter case aside, when the
    stored accounts had none to begin with; stored accounts are only ever
    appended, never changed or removed, by these calls. *)
Theorem X24_emails_stay_unique (w : World) (calls : list AuthCall) :
  uniqueEmails (accounts w) →
  uniqueEmails (accounts (fold_left authStep calls w)) ∧
  ∃ added, accounts (fold_left authStep calls w) = accounts w ++ added.
Proof.
  revert w. induction calls as [|c calls IH]; intros w Hw; simpl.
  - split; [done|]. exists []. by rewrite app_nil_r.
  - destruct (authStep_accounts w c) as [Hsame | (u & Hadd & Hfree)].
    + destruct (IH (authStep w c)) as (Hu & added & Ha); [by rewrite Hsame|].
      split; [done|]. exists added. by rewrite Ha, Hsame.
    + destruct (IH (authStep w c)) as (Hu & added & Ha).
      { rewrite Hadd. by apply uniqueEmails_snoc. }
      split; [done|]. exists (u :: added). rewrite Ha, Hadd. by rewrite <- app_assoc.
Qed.

Lemma X24_emails_stay_unique_witness :
  let ok := {| usersWriteThrows := false; currentWriteThrows := false |} in
  let w := {| usersItem := NoUsersItem; currentUserItem := None; user := None;
              authError := None |} in
  let calls := [callSignUp ok "Ada" "ada@example.org" "pw" 1700;
                callSignUp ok "Eve" "ADA@example.org" "x" 1701;
                callGoogle ok (Some {| payloadEmail := "Ada@Example.org"; name := "A";
                                       picture := "p"; sub := "g-1" |})] in
  List.map email (accounts (fold_left authStep calls w)) = ["ada@example.org"] ∧
  uniqueEmails (accounts (fold_left authStep calls w)).
Proof.
  intros ok w calls. split; [reflexivity|].
  apply (X24_emails_stay_unique w calls). constructor.
Defined.

(** X25. A login returns true only as a stored account with that email
    (letter case aside) that is not a Google account and whose password is
    the one given, and it then becomes the current user in state and
    storage.  A login that returns false sets an error and leaves the
    stored current user as it was; it leaves the user in state as it was
    too, except when the credentials were those of such an account and the
    write of the current user threw: the state then holds that account
    although the login returned false.  No login changes the stored
    accounts. *)
Theorem X25_login_result (wr : Writes) (email' password' : string) (w : World) :
  let r := login wr email' password' w in
  let matches u :=
    u ∈ accounts w ∧ JS.toLowerCase (email u) = JS.toLowerCase email' ∧
    viaGoogle u = false ∧ password u = Some password' in
  (fst r = true →
     ∃ u, user (snd r) = Some u ∧ currentUserItem (snd r) = Some u ∧ matches u ∧
          authError (snd r) = None ∧ currentWriteThrows wr = false) ∧
  (fst r = false →
     currentUserItem (snd r) = currentUserItem w ∧
     is_Some (authError (snd r)) ∧
     (user (snd r) = user w ∨
      currentWriteThrows wr = true ∧ ∃ u, user (snd r) = Some u ∧ matches u)) ∧
  (fst r = false → currentWriteThrows wr = false → user (snd r) = user w) ∧
  usersItem (snd r) = usersItem w.
Proof.
  intros r matches. subst r matches. unfold login, accounts.
  destruct (readUsers (usersItem w)) as [users|];
    [|repeat split; try done; by left].
  destruct (List.find _ users) as [fu|] eqn:Ef;
    [|repeat split; try done; by left].
  destruct (negb (viaGoogle fu)) eqn:Eg; cbn [andb];
    [|repeat split; try done; by left].
  case_bool_decide as Hp; [|repeat split; try done; by left].
  apply find_some in Ef as [Hin Hsame]. apply bool_decide_eq_true in Hsame.
  apply negb_true_iff in Eg. apply list_elem_of_In in Hin.
  destruct (currentWriteThrows wr);
    cbn [fst snd signedIn signInCaught user currentUserItem authError usersItem default].
  - split; [done|]. split; [|by split]. intros _. split; [done|]. split; [done|].
    right. split; [done|]. by exists fu.
  - split; [|by split]. intros _. by exists fu.
Qed.

Lemma X25_login_result_witness :
  let ok := {| usersWriteThrows := false; currentWriteThrows := false |} in
  let google :=
    {| id := "g-1"; email := "ada@example.org"; password := None; username := "Ada";
       avatar := None; isGoogleUser := Some true |} in
  let w := {| usersItem := UsersParsed [google]; currentUserItem := None; user := None;
              authError := None |} in
  fst (login ok "ada@example.org" "" w) = false ∧
  user (snd (login ok "ada@example.org" "" w)) = None.
Proof.
  intros ok google w.
  destruct (X25_login_result ok "ada@example.org" "" w) as (_ & _ & Hfail & _).
  split; [reflexivity|]. apply Hfail; reflexivity.
Defined.

(** The ways a Google sign-in with a decoded credential ends. *)
Lemma google_cases (wr : Writes) (p : GooglePayload) (w : World) :
  match readUsers (usersItem w) with
  | None =>
      handleGoogleSignIn wr (Some p) w
      = withError "An unexpected error occurred with Google Sign-In." w
  | Some users =>
      match List.find (sameEmail (payloadEmail p)) users with
      | Some u =>
          handleGoogleSignIn wr (Some p) w
          = if viaGoogle u
            then if currentWriteThrows wr
                 then signInCaught (usersItem w) u
                        "An unexpected error occurred with Google Sign-In." w
                 else signedIn (usersItem w) u
            else withError
                   "An account with this email exists. Please sign in with your password." w
      | None =>
          let new :=
            {| id := sub p; email := payloadEmail p; password := None;
               username := name p; avatar := Some (picture p);
               isGoogleUser := Some true |} in
          handleGoogleSignIn wr (Some p) w
          = if usersWriteThrows wr
            then withError "An unexpected error occurred with Google Sign-In." w
            else if currentWriteThrows wr
            then signInCaught (UsersParsed (users ++ [new])) new
                   "An unexpected error occurred with Google Sign-In." w
            else signedIn (UsersParsed (users ++ [new])) new
      end
  end.
Proof.
  unfold handleGoogleSignIn.
  destruct (readUsers (usersItem w)) as [users|]; [|done].
  destruct (List.find _ users) as [u|]; [|done]. by destruct (viaGoogle u).
Qed.

(** X26. A Google sign-in never signs in an account that is not a Google
    account: when the first stored account with the email, letter case
    aside, is a password account, user, stored accounts and stored current
    user stay as they were and an error is set.  When it ends without an
    error, the user in state and the stored current user are one stored
    Google account whose email equals the credential's up to letter case.
    It adds no account when a stored account has the email, letter case
    aside.  Whoever it puts in state, also when a write throws, is a Google
    account with that email.  Signing in again with the same credential,
    the same writes throwing as the first time (none, when the storage
    works), changes nothing more. *)
Theorem X26_google_sign_in (wr : Writes) (payload : option GooglePayload) (w : World) :
  let w1 := handleGoogleSignIn wr payload w in
  (authError w1 = None →
     ∃ p u, payload = Some p ∧ user w1 = Some u ∧ currentUserItem w1 = Some u ∧
            viaGoogle u = true ∧
            JS.toLowerCase (email u) = JS.toLowerCase (payloadEmail p) ∧
            u ∈ accounts w1) ∧
  (∀ p u, payload = Some p → u ∈ accounts w →
          JS.toLowerCase (email u) = JS.toLowerCase (payloadEmail p) →
          accounts w1 = accounts w) ∧
  (∀ p u, payload = Some p →
          List.find (sameEmail (payloadEmail p)) (accounts w) = Some u →
          viaGoogle u = false →
          user w1 = user w ∧ usersItem w1 = usersItem w ∧
          currentUserItem w1 = currentUserItem w ∧ is_Some (authError w1)) ∧
  (user w1 = user w ∨
   ∃ p u, payload = Some p ∧ user w1 = Some u ∧ viaGoogle u = true ∧
          JS.toLowerCase (email u) = JS.toLowerCase (payloadEmail p)) ∧
  handleGoogleSignIn wr payload w1 = w1.
Proof.
  intros w1. destruct payload as [p|].
  2:{ subst w1. cbn. split; [by intros [=]|]. split; [by intros ? ? [=]|].
      split; [by intros ? ? [=]|]. split; [by left | done]. }
  pose proof (google_cases wr p w) as Hw. pose proof (google_cases wr p w1) as Hw1.
  unfold accounts. fold w1 in Hw.
  destruct (readUsers (usersItem w)) as [users|] eqn:E.
  2:{ rewrite Hw in Hw1 |- *. cbn [withError authError user usersItem] in *.
      rewrite E in Hw1 |- *. split; [by intros [=]|]. split; [done|].
      split; [by intros ? ? _ [=]|]. split; [by left | done]. }
  cbn [default from_option Datatypes.id].
  destruct (List.find _ users) as [u|] eqn:Ef.
  - pose proof Ef as Ef'. apply find_some in Ef' as [Hin Hsame].
    apply bool_decide_eq_true in Hsame.
    destruct (viaGoogle u) eqn:Eg; [destruct (currentWriteThrows wr) eqn:Ec|];
      rewrite Hw in Hw1 |- *;
      cbn [withError signedIn signInCaught authError user currentUserItem usersItem] in *;
      rewrite E in Hw1 |- *; rewrite Ef in Hw1; rewrite Eg in Hw1.
    + split; [by intros [=]|]. split; [done|].
      split; [intros q u0 [= <-] Hf Hg; rewrite Ef in Hf; congruence|].
      split; [|done]. right. by exists p, u.
    + split; [|split; [done|split; [intros q u0 [= <-] Hf Hg; rewrite Ef in Hf; congruence|split; [|done]]]].
      * intros _. exists p, u. repeat split; try done. by apply list_elem_of_In.
      * right. by exists p, u.
    + split; [by intros [=]|]. split; [done|].
      split; [intros; by repeat split|]. split; [by left | done].
  - cbn zeta in Hw.
    assert (Hnew : ∀ q u0, Some p = Some q → u0 ∈ users →
              JS.toLowerCase (email u0) = JS.toLowerCase (payloadEmail q) → False).
    { intros q u0 [= <-] Hin Hlow. apply find_none_fresh in Ef. apply Ef.
      rewrite <- Hlow. by apply (elem_of_List_map (λ u, JS.toLowerCase (email u))). }
    destruct (usersWriteThrows wr) eqn:Eu; [|destruct (currentWriteThrows wr) eqn:Ec];
      rewrite Hw in Hw1 |- *;
      cbn [withError signedIn signInCaught authError user currentUserItem usersItem
           readUsers default from_option Datatypes.id] in *.
    + rewrite E in Hw1 |- *. rewrite Ef in Hw1. cbn zeta in Hw1.
      cbn [default from_option Datatypes.id].
      split; [by intros [=]|]. split; [done|].
      split; [intros q u0 [= <-] Hf; congruence|]. split; [by left | done].
    + rewrite find_app_miss in Hw1 by done. cbn [List.find] in Hw1.
      unfold sameEmail at 1 in Hw1. cbn [email] in Hw1.
      rewrite bool_decide_eq_true_2 in Hw1 by done.
      cbn [viaGoogle isGoogleUser] in Hw1.
      split; [by intros [=]|].
      split; [intros q u0 Hq Hin Hlow; destruct (Hnew q u0 Hq Hin Hlow)|].
      split; [intros q u0 [= <-] Hf; congruence|]. split; [|done]. right. by eexists p, _.
    + rewrite find_app_miss in Hw1 by done. cbn [List.find] in Hw1.
      unfold sameEmail at 1 in Hw1. cbn [email] in Hw1.
      rewrite bool_decide_eq_true_2 in Hw1 by done.
      cbn [viaGoogle isGoogleUser] in Hw1.
      split; [|split; [|split; [intros q u0 [= <-] Hf; congruence|split; [|done]]]].
      * intros _. eexists p, _. repeat split; try done.
        apply list_elem_of_In, in_or_app. right. by left.
      * intros q u0 Hq Hin Hlow. destruct (Hnew q u0 Hq Hin Hlow).
      * right. by eexists p, _.
Qed.

Lemma X26_google_sign_in_witness :
  let ok := {| usersWriteThrows := false; currentWriteThrows := false |} in
  let ada :=
    {| id := "1700"; email := "ada@example.org"; password := Some "pw"; username := "Ada";
       avatar := None; isGoogleUser := None |} in
  let w := {| usersItem := UsersParsed [ada]; currentUserItem := None; user := None;
              authError := None |} in
  let w1 := handleGoogleSignIn ok
              (Some {| payloadEmail := "ADA@example.org"; name := "A"; picture := "p";
                       sub := "g-1" |}) w in
  user w1 = None ∧ accounts w1 = [ada].
Proof.
  intros ok ada w w1.
  destruct (X26_google_sign_in ok
              (Some {| payloadEmail := "ADA@example.org"; name := "A"; picture := "p";
                       sub := "g-1" |}) w) as (_ & Hkeep & Herr & _).
  split.
  - apply (Herr _ ada eq_refl); reflexivity.
  - apply (Hkeep _ ada eq_refl); [left | reflexivity].
Defined.

(** X27. Changing the avatar without a signed-in user changes nothing.
    With one, the user in state gets the avatar whatever the storage does;
    the stored accounts keep their ids and order and every stored account
    with another id stays as it was.  When the write of the current user
    throws, the storage stays as it was.  When it succeeds, the stored
    current user gets the avatar; the stored accounts with the user's id
    are then replaced by the updated user if the accounts can be read and
    their write succeeds, and are left as they were otherwise. *)
Theorem X27_avatar_update (wr : Writes) (avatarDataUrl : string) (w : World) :
  (user w = None → updateUserAvatar wr avatarDataUrl w = w) ∧
  (∀ u, user w = Some u →
     let w1 := updateUserAvatar wr avatarDataUrl w in
     let updated := withAvatar avatarDataUrl u in
     user w1 = Some updated ∧
     avatar updated = Some avatarDataUrl ∧
     authError w1 = authError w ∧
     List.map id (accounts w1) = List.map id (accounts w) ∧
     (∀ i x, accounts w !! i = Some x → id x ≠ id u → accounts w1 !! i = Some x) ∧
     (currentWriteThrows wr = true →
        currentUserItem w1 = currentUserItem w ∧ usersItem w1 = usersItem w) ∧
     (currentWriteThrows wr = false →
        currentUserItem w1 = Some updated ∧
        (usersWriteThrows wr = false →
           ∀ i x, accounts w !! i = Some x → id x = id u →
                  accounts w1 !! i = Some updated) ∧
        (readUsers (usersItem w) = None ∨ usersWriteThrows wr = true →
           usersItem w1 = usersItem w))).
Proof.
  unfold updateUserAvatar, accounts. split; [by intros ->|].
  intros u Hu. cbn zeta. rewrite Hu.
  destruct (currentWriteThrows wr); cbn [user currentUserItem usersItem authError].
  { repeat split; try done. }
  split; [done|]. split; [done|]. split; [done|].
  destruct (readUsers (usersItem w)) as [users|] eqn:E;
    [|rewrite E; repeat split; try done].
  destruct (usersWriteThrows wr);
    cbn [readUsers default from_option Datatypes.id].
  { rewrite E. cbn [default from_option Datatypes.id].
    repeat split; try done. }
  split; [|split; [|split; [done|]]].
  - rewrite List.map_map. apply List.map_ext. intros x. by case_bool_decide as Hx; [rewrite Hx|].
  - intros i x Hi Hne. rewrite lookup_List_map, Hi. cbn. by rewrite bool_decide_eq_false_2.
  - intros _. split; [done|]. split; [|by intros [[=]|[=]]].
    intros _ i x Hi Heq. rewrite lookup_List_map, Hi. cbn. by rewrite bool_decide_eq_true_2.
Qed.

Lemma X27_avatar_update_witness :
  let ok := {| usersWriteThrows := false; currentWriteThrows := false |} in
  let ada :=
    {| id := "1700"; email := "ada@example.org"; password := Some "pw"; username := "Ada";
       avatar := None; isGoogleUser := None |} in
  let eve :=
    {| id := "1701"; email := "eve@example.org"; password := Some "x"; username := "Eve";
       avatar := None; isGoogleUser := None |} in
  let w := {| usersItem := UsersParsed [ada; eve]; currentUserItem := Some eve;
              user := Some eve; authError := None |} in
  accounts (updateUserAvatar ok "data:image/png;base64,AAAA" w) !! 0 = Some ada ∧
  user (updateUserAvatar ok "data:image/png;base64,AAAA" w)
  = Some (withAvatar "data:image/png;base64,AAAA" eve).
Proof.
  intros ok ada eve w.
  destruct (X27_avatar_update ok "data:image/png;base64,AAAA" w) as [_ Hset].
  destruct (Hset eve eq_refl) as (Hu & _ & _ & _ & Hframe & _).
  split; [|exact Hu]. apply Hframe; [reflexivity | discriminate].
Defined.

Lemma anyStep_sync w c :
  currentWriteThrows (writesOf c) = false →
  user w = currentUserItem w →
  user (anyStep w c) = currentUserItem (anyStep w c).
Proof.
  intros Hc Hw.
  destruct c as [[wr e p|wr n e p now|wr payload|wr]|wr url];
    cbn [writesOf] in Hc; cbn [anyStep authStep].
  - unfold login. rewrite Hc. destruct (readUsers (usersItem w)) as [users|]; [|done].
    destruct (List.find _ users) as [fu|]; [|done].
    by destruct (negb (viaGoogle fu) && _).
  - unfold signUp. rewrite Hc. destruct (readUsers (usersItem w)) as [users|]; [|done].
    destruct (existsb _ users); [done|]. cbn zeta. by destruct (usersWriteThrows wr).
  - unfold handleGoogleSignIn. rewrite Hc. destruct payload as [p|]; [|done].
    destruct (readUsers (usersItem w)) as [users|]; [|done].
    destruct (List.find _ users) as [u|].
    + by destruct (negb (viaGoogle u)).
    + cbn zeta. by destruct (usersWriteThrows wr).
  - unfold logout. by rewrite Hc.
  - unfold updateUserAvatar. rewrite Hc. destruct (user w) eqn:Eu; [reflexivity|].
    by rewrite Eu.
Qed.

(** X28. From any page load on, through any sequence of logins, sign-ups,
    Google sign-ins, logouts and avatar changes during which no write or
    removal of the stored current user throws, the user in state is the
    stored current user, so that loading the page again restores exactly
    the signed-in user, and nobody when signed out. *)
Theorem X28_sign_in_survives_reload (w0 : World) (calls : list AnyCall) :
  Forall (λ c, currentWriteThrows (writesOf c) = false) calls →
  let w := fold_left anyStep calls (reload w0) in
  user w = currentUserItem w ∧ user (reload w) = user w.
Proof.
  intros Hcalls w.
  assert (Hsync : user w = currentUserItem w).
  { subst w. assert (H0 : user (reload w0) = currentUserItem (reload w0)).
    { unfold reload, restore. cbn [currentUserItem]. by destruct (currentUserItem w0). }
    revert H0. generalize (reload w0). clear w0.
    induction Hcalls as [|c calls Hc _ IH]; intros w Hw; [done|].
    apply IH. by apply anyStep_sync. }
  split; [done|]. rewrite Hsync. unfold reload, restore. cbn [currentUserItem].
  by destruct (currentUserItem w).
Qed.

Lemma X28_sign_in_survives_reload_witness :
  let ok := {| usersWriteThrows := false; currentWriteThrows := false |} in
  let full := {| usersWriteThrows := true; currentWriteThrows := false |} in
  let w0 := {| usersItem := NoUsersItem; currentUserItem := None; user := None;
               authError := None |} in
  let calls := [fromSignIn (callSignUp ok "Ada" "ada@example.org" "pw" 1700);
                callAvatar full "data:image/png;base64,AAAA";
                fromSignIn (callLogout ok);
                fromSignIn (callLogin ok "ADA@example.org" "pw")] in
  let w := fold_left anyStep calls (reload w0) in
  (id <$> user w) = Some "1700" ∧ user (reload w) = user w.
Proof.
  intros ok full w0 calls w.
  destruct (X28_sign_in_survives_reload w0 calls) as [_ Hreload].
  - by repeat constructor.
  - split; [reflexivity | exact Hreload].
Defined.

End AuthMore.
